(** * Tag synchronisation (sync/fromDisk/tags.js): a shallow embedding

    The file embeds the two reconciliation drivers [sync] (legacy) and
    [syncNew] (current) of [sync/fromDisk/tags.js], together with the
    helpers [getDuplicates] and [getDuplicatesByKey], and states the
    properties of the specification about them.

    JavaScript data is modelled as the code uses it:
    - a plain object literal used as a dictionary is a finite map of its own
      properties *plus* the properties it inherits from [Object.prototype];
    - a [Set] is a duplicate-free list in insertion order, a [Map] a finite
      map;
    - arrays are lists; the array [courseInfo.tags], which the legacy driver
      may alias and extend in place, lives in an explicit store;
    - exceptions, the store and the log of stored-procedure calls are
      threaded by a small state-and-exception monad. *)

From stdpp Require Import base option list gmap strings.
From Stdlib Require Import ZArith.

Local Open Scope string_scope.
Local Open Scope list_scope.
Local Open Scope nat_scope.
Set Warnings "-register-all,-clear-no-such-hyp".

(** ** Plain JavaScript objects used as dictionaries *)

Module JsObject.

(** The property names every object created by a literal inherits from
    [Object.prototype]: eleven built-in functions and the accessor
    [__proto__]. *)
Definition prototype_keys : list string :=
  [ "constructor"; "__defineGetter__"; "__defineSetter__"; "hasOwnProperty";
    "__lookupGetter__"; "__lookupSetter__"; "isPrototypeOf";
    "propertyIsEnumerable"; "toString"; "valueOf"; "__proto__";
    "toLocaleString" ].

Definition is_prototype_key (k : string) : bool :=
  bool_decide (k ∈ prototype_keys).

(** What reading [obj[k]] yields: an own property, the object found on the
    prototype under [k] (a function, or the prototype itself for
    [__proto__]), or [undefined]. *)
Inductive lookup_result (A : Type) : Type :=
| Own (a : A)
| Inherited (k : string)
| Undefined.
Arguments Own {A} a.
Arguments Inherited {A} k.
Arguments Undefined {A}.

Section Dictionary.
(** [A] is the type of the primitive values the program stores. *)
Context {A : Type}.

(** [{}] *)
Definition empty : gmap string A := ∅.

(** [obj[k]] *)
Definition get (obj : gmap string A) (k : string) : lookup_result A :=
  match obj !! k with
  | Some a => Own a
  | None => if is_prototype_key k then Inherited k else Undefined
  end.

(** [obj[k] = a].  For [k = "__proto__"] the assignment runs the
    inherited setter, which ignores a primitive value and creates no own
    property. *)
Definition set (obj : gmap string A) (k : string) (a : A) : gmap string A :=
  if decide (k = "__proto__") then obj else <[k := a]> obj.

(** [k in obj]: own or inherited. *)
Definition has (obj : gmap string A) (k : string) : bool :=
  bool_decide (is_Some (obj !! k)) || is_prototype_key k.

End Dictionary.

(** Truthiness of a looked-up value, given the truthiness of the stored
    primitives: objects and functions are truthy, [undefined] is falsy. *)
Definition truthy {A} (prim : A → bool) (r : lookup_result A) : bool :=
  match r with
  | Own a => prim a
  | Inherited _ => true
  | Undefined => false
  end.

End JsObject.

(** ** The helpers of tags.js *)

(** [arr.filter(v => { const present = seen[v]; seen[v] = true; return present; })]
    with the closure's dictionary [seen] threaded through the traversal. *)
Fixpoint getDuplicates_filter (seen : gmap string bool) (arr : list string)
  : list string :=
  match arr with
  | [] => []
  | v :: rest =>
      let present := JsObject.get seen v in
      let seen := JsObject.set seen v true in
      if JsObject.truthy (λ b, b) present
      then v :: getDuplicates_filter seen rest
      else getDuplicates_filter seen rest
  end.

Definition getDuplicates (arr : list string) : list string :=
  getDuplicates_filter JsObject.empty arr.

Definition getDuplicatesByKey {T : Type} (arr : list T) (key : T → string)
  : list string :=
  getDuplicates (map key arr).

(** ** Data model *)

(** Database identifiers are opaque to the program ([any]): the driver hands
    over numbers or strings. *)
Inductive dbid : Type :=
| IdNum (n : Z)
| IdStr (s : string).

(** A tag of [infoCourse.json]. *)
Record Tag : Type := mkTag {
  name : string;
  color : string;
  description : string;
}.

(** A question of the legacy [questionDB]: [question.id] and the optional
    [question.tags]. *)
Record Question : Type := mkQuestion {
  question_id : dbid;
  question_tags : option (list string);
}.

(** The legacy [courseInfo]: the optional array [courseInfo.tags] and
    [courseInfo.courseId]. *)
Record CourseInfo : Type := mkCourseInfo {
  courseInfo_tags : option (list Tag);
  courseInfo_courseId : dbid;
}.

(** An info file of the course-data loader: [hasErrors] is the answer of
    [infofile.hasErrors] on the item, [data] its payload (read by the driver
    only when the item has no errors). *)
Record InfoFile (D : Type) : Type := mkInfoFile {
  hasErrors : bool;
  data : D;
}.
Arguments mkInfoFile {D} _ _.
Arguments hasErrors {D} _.
Arguments data {D} _.

Record CourseJson : Type := mkCourseJson {
  course_tags : list Tag;              (* courseData.course.data.tags *)
}.

Record QuestionJson : Type := mkQuestionJson {
  info_tags : option (list string);    (* question.data.tags *)
}.

(** [courseData]; an object iterated with [Object.values], [Object.entries]
    or [for ... in] is given by its own entries in enumeration order. *)
Record CourseData : Type := mkCourseData {
  course : InfoFile CourseJson;
  questions : list (string * InfoFile QuestionJson);
}.

(** ** JSON and stored-procedure parameters *)

Inductive json : Type :=
| JNull
| JNum (n : Z)
| JStr (s : string)
| JArr (items : list json)
| JObj (fields : list (string * json)).

(** A positional parameter of a stored-procedure call.  [PJson j] is the
    string [JSON.stringify] produces, given by the JSON value [j] it
    denotes. *)
Inductive param : Type :=
| PBool (b : bool)
| PId (i : dbid)
| PText (s : string)
| PJson (j : json)
| PArray (items : list param).

Definition json_of_id (i : dbid) : json :=
  match i with
  | IdNum n => JNum n
  | IdStr s => JStr s
  end.

(** [JSON.stringify] of an array element obtained by a property read:
    [undefined] and functions become [null], the prototype object (which has
    no enumerable property) becomes [{}]. *)
Definition json_of_lookup (r : JsObject.lookup_result dbid) : json :=
  match r with
  | JsObject.Own i => json_of_id i
  | JsObject.Inherited k => if decide (k = "__proto__") then JObj [] else JNull
  | JsObject.Undefined => JNull
  end.

(** [JSON.stringify] of an array element obtained by [Map.prototype.get]. *)
Definition json_of_option (o : option dbid) : json :=
  match o with
  | Some i => json_of_id i
  | None => JNull
  end.

(** ** Sets in insertion order *)

Module JsSet.

(** [s.add(x)] *)
Definition add (s : list string) (x : string) : list string :=
  if bool_decide (x ∈ s) then s else s ++ [x].

(** [s.has(x)] *)
Definition has (s : list string) (x : string) : bool :=
  bool_decide (x ∈ s).

(** [arr.forEach(t => s.add(t))] and [new Set(arr)] *)
Definition add_all (s : list string) (arr : list string) : list string :=
  fold_left add arr s.

End JsSet.

(** ** Exceptions, store and the database collaborator *)

Inductive exn : Type :=
| Error (message : string)        (* [throw new Error(message)] *)
| TypeError                       (* a property read on [undefined] *)
| Rejected (procedure : string).  (* the database call failed *)

Inductive result (A : Type) : Type :=
| Ok (a : A)
| Throw (e : exn).
Arguments Ok {A} a.
Arguments Throw {A} e.

(** The two arrays the name [tags] of the legacy driver can denote. *)
Inductive array_ref : Type :=
| CallerArray    (* the array held by [courseInfo.tags] *)
| FreshArray.    (* the literal [[]] of [courseInfo.tags || []] *)

Record store : Type := mkStore {
  caller_tags : option (list Tag);      (* [courseInfo.tags] *)
  fresh_tags : list Tag;
  calls : list (string * list param);   (* procedure calls made so far *)
}.

(** The answers of the stored procedures; [None] is a failed call. *)
Record Database : Type := mkDatabase {
  sync_course_tags : list param → option (list dbid);
  sync_question_tags : list param → option unit;
  sync_course_tags_new : list param → option (list (string * dbid));
  sync_question_tags_new : list param → option unit;
}.

Definition M (A : Type) : Type := store → result A * store.

Definition ret {A} (a : A) : M A := λ σ, (Ok a, σ).

Definition bind {A B} (k : A → M B) (m : M A) : M B :=
  λ σ, match m σ with
       | (Ok a, σ') => k a σ'
       | (Throw e, σ') => (Throw e, σ')
       end.

#[global] Instance M_ret : MRet M := @ret.
#[global] Instance M_bind : MBind M := @bind.

Definition throw {A} (e : exn) : M A := λ σ, (Throw e, σ).

Definition lift {A} (r : result A) : M A := λ σ, (r, σ).

(** [courseInfo.tags || []] *)
Definition tags_or_empty : M array_ref :=
  λ σ, match caller_tags σ with
       | Some _ => (Ok CallerArray, σ)
       | None => (Ok FreshArray, mkStore (caller_tags σ) [] (calls σ))
       end.

Definition read (r : array_ref) : M (list Tag) :=
  λ σ, match r with
       | CallerArray => (Ok (default [] (caller_tags σ)), σ)
       | FreshArray => (Ok (fresh_tags σ), σ)
       end.

(** [arr.push(...items)] *)
Definition push (r : array_ref) (items : list Tag) : M unit :=
  λ σ, match r with
       | CallerArray =>
           (Ok (), mkStore ((λ arr, arr ++ items) <$> caller_tags σ)
                           (fresh_tags σ) (calls σ))
       | FreshArray =>
           (Ok (), mkStore (caller_tags σ) (fresh_tags σ ++ items) (calls σ))
       end.

(** [await sqldb.callAsync(procedure, params)] *)
Definition callAsync {R} (procedure : string) (answer : list param → option R)
    (params : list param) : M R :=
  λ σ, let σ' := mkStore (caller_tags σ) (fresh_tags σ)
                         (calls σ ++ [(procedure, params)]) in
       match answer params with
       | Some row => (Ok row, σ')
       | None => (Throw (Rejected procedure), σ')
       end.

(** [await sqldb.callOneRowAsync(procedure, params)]: the same call, which
    also fails unless the procedure answers with exactly one row. *)
Definition callOneRowAsync {R} (procedure : string)
    (answer : list param → option R) (params : list param) : M R :=
  callAsync procedure answer params.

(** ** The legacy driver [sync] *)

(** [arr.join(', ')] *)
Definition join (arr : list string) : string := String.concat ", " arr.

(** The object literal pushed for a tag name missing from
    [infoCourse.json]. *)
Definition placeholder (n : string) : Tag :=
  mkTag n "gray1"
    "Auto-generated from use in a question; add this tag to your courseInfo.json file to customize".

(** [Object.values(questionDB).forEach(q => questionTagNames.push(...(q.tags || [])))] *)
Definition collect_questionTagNames (questionDB : list (string * Question))
  : list string :=
  fold_left (λ questionTagNames q,
               questionTagNames ++ default [] (question_tags q))
            (map snd questionDB) [].

(** [questionTagNames.filter(name => !knownTagNames.has(name))], with
    [knownTagNames = new Set(tags.map(tag => tag.name))]. *)
Definition missingTagNames (tags : list Tag)
    (questionDB : list (string * Question)) : list string :=
  let knownTagNames := JsSet.add_all [] (map name tags) in
  List.filter (λ n, negb (JsSet.has knownTagNames n))
              (collect_questionTagNames questionDB).

(** [tags.map(tag => [tag.name, tag.color, tag.description])] *)
Definition paramTags_of (tags : list Tag) : list (string * string * string) :=
  map (λ tag, (name tag, color tag, description tag)) tags.

Definition json_of_paramTags (paramTags : list (string * string * string))
  : json :=
  JArr (map (λ '(n, c, d), JArr [JStr n; JStr c; JStr d]) paramTags).

(** One step of the reducer: [acc[paramTags[index][0]] = id; return acc]. *)
Definition tagIdsByName_step (paramTags : list (string * string * string))
    (acc : gmap string dbid) (id : dbid) (index : nat)
  : result (gmap string dbid) :=
  match paramTags !! index with
  | Some (n, _, _) => Ok (JsObject.set acc n id)
  | None => Throw TypeError
  end.

(** [new_tag_ids.reduce((acc, id, index) => ..., {})], from [index] on. *)
Fixpoint tagIdsByName_reduce (paramTags : list (string * string * string))
    (acc : gmap string dbid) (index : nat) (new_tag_ids : list dbid)
  : result (gmap string dbid) :=
  match new_tag_ids with
  | [] => Ok acc
  | id :: rest =>
      match tagIdsByName_step paramTags acc id index with
      | Ok acc => tagIdsByName_reduce paramTags acc (S index) rest
      | Throw e => Throw e
      end
  end.

Definition unknownTags_of (tagIdsByName : gmap string dbid)
    (tags : list string) : list string :=
  List.filter (λ tag, negb (JsObject.has tagIdsByName tag)) tags.

Definition unknown_tags_message (qid : string) (unknownTags : list string)
  : string :=
  "Question " ++ qid ++ " has unknown tags: " ++ join unknownTags.

Definition duplicate_tags_message (qid : string) (duplicateTags : list string)
  : string :=
  "Question " ++ qid ++ " has duplicate tags: " ++ join duplicateTags.

Definition duplicate_names_message (duplicateNames : list string) : string :=
  "Duplicate tag names found: " ++ join duplicateNames
    ++ ". Tag names must be unique within the course.".

(** The loop [for (const qid in questionDB) { ... }], which either throws or
    extends [paramQuestionTags]. *)
Fixpoint for_in_questionDB (tagIdsByName : gmap string dbid)
    (questionDB : list (string * Question))
    (paramQuestionTags : list (dbid * list (JsObject.lookup_result dbid)))
  : result (list (dbid * list (JsObject.lookup_result dbid))) :=
  match questionDB with
  | [] => Ok paramQuestionTags
  | (qid, question) :: rest =>
      let tags := default [] (question_tags question) in
      let unknownTags := unknownTags_of tagIdsByName tags in
      if (0 <? length unknownTags)%nat
      then Throw (Error (unknown_tags_message qid unknownTags))
      else
        let duplicateTags := getDuplicates tags in
        if (0 <? length duplicateTags)%nat
        then Throw (Error (duplicate_tags_message qid duplicateTags))
        else
          for_in_questionDB tagIdsByName rest
            (paramQuestionTags
               ++ [(question_id question, map (JsObject.get tagIdsByName) tags)])
  end.

Definition json_of_paramQuestionTags
    (paramQuestionTags : list (dbid * list (JsObject.lookup_result dbid)))
  : json :=
  JArr (map (λ '(id, tagIds),
               JArr [json_of_id id; JArr (map json_of_lookup tagIds)])
            paramQuestionTags).

Definition sync_body (db : Database) (courseId : dbid)
    (questionDB : list (string * Question)) : M unit :=
  tags ← tags_or_empty;
  arr ← read tags;
  let duplicateNames := getDuplicatesByKey arr name in
  (if (0 <? length duplicateNames)%nat
   then throw (Error (duplicate_names_message duplicateNames))
   else ret ());;
  push tags (map placeholder (missingTagNames arr questionDB));;
  arr ← read tags;
  let paramTags := paramTags_of arr in
  new_tag_ids ← callAsync "sync_course_tags" (sync_course_tags db)
                  [PJson (json_of_paramTags paramTags); PId courseId];
  tagIdsByName ← lift (tagIdsByName_reduce paramTags JsObject.empty 0 new_tag_ids);
  paramQuestionTags ← lift (for_in_questionDB tagIdsByName questionDB []);
  callAsync "sync_question_tags" (sync_question_tags db)
    [PJson (json_of_paramQuestionTags paramQuestionTags)].

(** A run of [sync(courseInfo, questionDB, callback)]: what the callback
    receives, and the store the run leaves behind. *)
Definition sync (db : Database) (courseInfo : CourseInfo)
    (questionDB : list (string * Question)) : result unit * store :=
  sync_body db (courseInfo_courseId courseInfo) questionDB
    (mkStore (courseInfo_tags courseInfo) [] []).

(** ** The current driver [syncNew] *)

(** [courseData.course.data.tags.map(t => JSON.stringify([t.name, t.description, t.color]))] *)
Definition courseTags_of (tags : list Tag) : list param :=
  map (λ t, PJson (JArr [JStr (name t); JStr (description t); JStr (color t)]))
      tags.

(** The [forEach] that fills [knownQuestionTagsNames]. *)
Definition knownQuestionTagsNames_of
    (questions : list (string * InfoFile QuestionJson)) : list string :=
  fold_left (λ known q,
               if negb (hasErrors q)
               then JsSet.add_all known (default [] (info_tags (data q)))
               else known)
            (map snd questions) [].

(** [newTags.reduce((acc, [name, id]) => { acc.set(name, id); return acc; }, new Map())] *)
Definition tagIdsByName_of (newTags : list (string * dbid)) : gmap string dbid :=
  fold_left (λ acc '(n, id), <[n := id]> acc) newTags ∅.

(** The [forEach] over [Object.entries(courseData.questions)] that fills
    [questionTagsParam]. *)
Definition questionTagsParam_of (tagIdsByName : gmap string dbid)
    (questionIds : gmap string dbid)
    (questions : list (string * InfoFile QuestionJson)) : list param :=
  fold_left (λ questionTagsParam '(qid, question),
               if hasErrors question then questionTagsParam
               else
                 let dedupedQuestionTagNames :=
                   JsSet.add_all [] (default [] (info_tags (data question))) in
                 let questionTagIds :=
                   map (λ t, tagIdsByName !! t) dedupedQuestionTagNames in
                 questionTagsParam
                   ++ [PJson (JArr [json_of_lookup (JsObject.get questionIds qid);
                                    JArr (map json_of_option questionTagIds)])])
            questions [].

Definition syncNew_body (db : Database) (courseId : dbid)
    (courseData : CourseData) (questionIds : gmap string dbid) : M unit :=
  let courseTags :=
    if negb (hasErrors (course courseData))
    then courseTags_of (course_tags (data (course courseData)))
    else [] in
  let questionTagNames := knownQuestionTagsNames_of (questions courseData) in
  let params :=
    [ PBool (negb (hasErrors (course courseData)));
      PArray courseTags;
      PArray (map PText questionTagNames);
      PId courseId ] in
  newTags ← callOneRowAsync "sync_course_tags_new" (sync_course_tags_new db)
              params;
  let tagIdsByName := tagIdsByName_of newTags in
  let questionTagsParam :=
    questionTagsParam_of tagIdsByName questionIds (questions courseData) in
  callAsync "sync_question_tags_new" (sync_question_tags_new db)
    [PArray questionTagsParam].

(** A run of [syncNew(courseId, courseData, questionIds)]; the driver owns
    no array of the caller. *)
Definition syncNew (db : Database) (courseId : dbid) (courseData : CourseData)
    (questionIds : gmap string dbid) : result unit * store :=
  syncNew_body db courseId courseData questionIds (mkStore None [] []).

(** ** Sample runs *)

Module Samples.

(** A database that numbers the tags it is given 1, 2, ... *)
Definition number_from (start : Z) (n : nat) : list dbid :=
  map (λ i, IdNum (start + Z.of_nat i)) (seq 0 n).

Definition count_tuples (params : list param) : nat :=
  match params with
  | PJson (JArr items) :: _ => length items
  | _ => 0
  end.

Definition names_of (params : list param) : list string :=
  match params with
  | [_; PArray courseTags; PArray names; _] =>
      omap (λ p, match p with
                 | PJson (JArr (JStr n :: _)) => Some n
                 | _ => None
                 end) courseTags
      ++ omap (λ p, match p with PText n => Some n | _ => None end) names
  | _ => []
  end.

Definition db_ok : Database :=
  mkDatabase
    (λ params, Some (number_from 1 (count_tuples params)))
    (λ _, Some ())
    (λ params, let ns := names_of params in
               Some (zip ns (number_from 1 (length ns))))
    (λ _, Some ()).

(** A database whose first procedure answers with no identifier at all. *)
Definition db_silent : Database :=
  mkDatabase (λ _, Some []) (λ _, Some ()) (λ _, Some []) (λ _, Some ()).

(** A database that is down. *)
Definition db_down : Database :=
  mkDatabase (λ _, None) (λ _, None) (λ _, None) (λ _, None).

Definition tag_x : Tag := mkTag "x" "blue1" "d".

End Samples.

(** * Vocabulary of the statements *)

(** The elements of [l] that repeat an element of [earlier] or an earlier
    element of [l]. *)
Fixpoint repeats (earlier : list string) (l : list string) : list string :=
  match l with
  | [] => []
  | v :: rest =>
      if bool_decide (v ∈ earlier)
      then v :: repeats (v :: earlier) rest
      else repeats (v :: earlier) rest
  end.

(** [seen] answers truthy exactly on the names of [E]. *)
Definition seen_as (seen : gmap string bool) (E : list string) : Prop :=
  ∀ k, JsObject.truthy (λ b, b) (JsObject.get seen k) = bool_decide (k ∈ E).

(** The tag names of a legacy question: [question.tags || []]. *)
Definition tags_of (question : Question) : list string :=
  default [] (question_tags question).

(** The working tag list once the placeholders are pushed. *)
Definition resolved_tags (tags : list Tag)
    (questionDB : list (string * Question)) : list Tag :=
  tags ++ map placeholder (missingTagNames tags questionDB).

(** The first call of the legacy driver, for the working list [tags]. *)
Definition course_tags_call (courseId : dbid) (tags : list Tag)
  : string * list param :=
  ("sync_course_tags",
   [PJson (json_of_paramTags (paramTags_of tags)); PId courseId]).

(** The second call of the legacy driver. *)
Definition question_tags_call
    (paramQuestionTags : list (dbid * list (JsObject.lookup_result dbid)))
  : string * list param :=
  ("sync_question_tags", [PJson (json_of_paramQuestionTags paramQuestionTags)]).

(** The store of a legacy run whose working list is [arr]: the list is the
    caller's array when [courseInfo.tags] is present, a fresh one otherwise. *)
Definition store_with (courseInfo : CourseInfo) (arr : list Tag)
    (log : list (string * list param)) : store :=
  match courseInfo_tags courseInfo with
  | Some _ => mkStore (Some arr) [] log
  | None => mkStore None arr log
  end.

(** A question passes the two checks of the loop. *)
Definition passes (tagIdsByName : gmap string dbid) (question : Question)
  : Prop :=
  unknownTags_of tagIdsByName (tags_of question) = []
  ∧ getDuplicates (tags_of question) = [].

(** The association the loop encodes for a question. *)
Definition association (tagIdsByName : gmap string dbid) (question : Question)
  : dbid * list (JsObject.lookup_result dbid) :=
  (question_id question, map (JsObject.get tagIdsByName) (tags_of question)).

(** The tag names of a loaded question: [question.data.tags || []]. *)
Definition info_tags_of (question : InfoFile QuestionJson) : list string :=
  default [] (info_tags (data question)).

(** The first call of the current driver. *)
Definition course_tags_new_call (courseId : dbid) (courseData : CourseData)
  : string * list param :=
  ("sync_course_tags_new",
   [ PBool (negb (hasErrors (course courseData)));
     PArray (if negb (hasErrors (course courseData))
             then courseTags_of (course_tags (data (course courseData)))
             else []);
     PArray (map PText (knownQuestionTagsNames_of (questions courseData)));
     PId courseId ]).

(** The second call of the current driver. *)
Definition question_tags_new_call (tagIdsByName questionIds : gmap string dbid)
    (courseData : CourseData) : string * list param :=
  ("sync_question_tags_new",
   [PArray (questionTagsParam_of tagIdsByName questionIds
              (questions courseData))]).

(** The tag names of the questions that loaded without error, in reference
    order. *)
Definition valid_question_tag_names
    (questions : list (string * InfoFile QuestionJson)) : list string :=
  flat_map (λ p, if hasErrors p.2 then [] else info_tags_of p.2) questions.

(** The string pushed on [questionTagsParam] for a loaded question. *)
Definition association_param (tagIdsByName questionIds : gmap string dbid)
    (qid : string) (question : InfoFile QuestionJson) : param :=
  PJson (JArr [ json_of_lookup (JsObject.get questionIds qid);
                JArr (map (λ t, json_of_option (tagIdsByName !! t))
                          (JsSet.add_all [] (info_tags_of question))) ]).

(** The strings pushed for all the questions, in enumeration order. *)
Definition association_params (tagIdsByName questionIds : gmap string dbid)
    (questions : list (string * InfoFile QuestionJson)) : list param :=
  flat_map (λ p, if hasErrors p.2 then []
                 else [association_param tagIdsByName questionIds p.1 p.2])
           questions.

(** [courseData] without the questions that failed to load. *)
Definition valid_questions (questions : list (string * InfoFile QuestionJson))
  : list (string * InfoFile QuestionJson) :=
  List.filter (λ p, negb (hasErrors p.2)) questions.

(** The same course data, the questions that failed to load left out. *)
Definition without_invalid_questions (courseData : CourseData) : CourseData :=
  mkCourseData (course courseData) (valid_questions (questions courseData)).

(** A name that no object inherits from [Object.prototype]. *)
Definition ordinary (k : string) : Prop := k ∉ JsObject.prototype_keys.

(** The tuple orders of the two encoders. *)
Definition name_color_description (t : Tag) : json :=
  JArr [JStr (name t); JStr (color t); JStr (description t)].

Definition name_description_color (t : Tag) : json :=
  JArr [JStr (name t); JStr (description t); JStr (color t)].

(** * Properties *)

(** ** The duplicate detector *)

Section Duplicates.

Import JsObject.

Lemma seen_as_empty : seen_as empty prototype_keys.
Proof.
  intros k. unfold get, empty. rewrite lookup_empty.
  unfold is_prototype_key. by destruct (bool_decide (k ∈ prototype_keys)).
Qed.

Lemma seen_as_set seen E v :
  seen_as seen E → "__proto__" ∈ E → seen_as (set seen v true) (v :: E).
Proof.
  intros Hseen Hproto k. unfold set.
  destruct (decide (v = "__proto__")) as [->|Hv].
  - rewrite Hseen. apply bool_decide_ext. set_solver.
  - unfold get. destruct (decide (k = v)) as [->|Hk].
    + rewrite lookup_insert_eq. cbn. symmetry. apply bool_decide_eq_true.
      set_solver.
    + rewrite lookup_insert_ne by done. fold (get seen k).
      rewrite Hseen. apply bool_decide_ext. set_solver.
Qed.

Lemma getDuplicates_filter_repeats seen E l :
  seen_as seen E → "__proto__" ∈ E → getDuplicates_filter seen l = repeats E l.
Proof.
  revert seen E. induction l as [|v rest IH]; intros seen E Hseen Hproto.
  - reflexivity.
  - cbn [getDuplicates_filter repeats]. rewrite Hseen.
    rewrite (IH (set seen v true) (v :: E)).
    + reflexivity.
    + by apply seen_as_set.
    + set_solver.
Qed.

(** The detector behaves as if every property name of [Object.prototype]
    had been met before the traversal started. *)
Lemma getDuplicates_repeats l : getDuplicates l = repeats prototype_keys l.
Proof.
  apply getDuplicates_filter_repeats.
  - apply seen_as_empty.
  - unfold prototype_keys. set_solver.
Qed.

Lemma repeats_ext E E' l :
  (∀ k, k ∈ l → (k ∈ E ↔ k ∈ E')) → repeats E l = repeats E' l.
Proof.
  revert E E'. induction l as [|v rest IH]; intros E E' Hext; [done|].
  cbn [repeats].
  rewrite (bool_decide_ext (v ∈ E) (v ∈ E')) by (apply Hext; set_solver).
  rewrite (IH (v :: E) (v :: E')); [done|].
  intros k Hk. rewrite !elem_of_cons.
  assert (k ∈ E ↔ k ∈ E') by (apply Hext; set_solver). tauto.
Qed.

Lemma repeats_elem_of E l x : x ∈ E → x ∈ l → x ∈ repeats E l.
Proof.
  revert E. induction l as [|v rest IH]; intros E HE Hl; [set_solver|].
  cbn [repeats]. apply elem_of_cons in Hl as [->|Hl].
  - rewrite bool_decide_eq_true_2 by done. set_solver.
  - assert (x ∈ repeats (v :: E) rest) by (apply IH; set_solver).
    case_bool_decide; set_solver.
Qed.

Lemma repeats_not_NoDup E l : ¬ NoDup l → repeats E l ≠ [].
Proof.
  revert E. induction l as [|v rest IH]; intros E Hdup.
  - destruct Hdup. constructor.
  - cbn [repeats]. destruct (decide (v ∈ rest)) as [Hin|Hnin].
    + assert (v ∈ repeats (v :: E) rest) as Hv
        by (apply repeats_elem_of; set_solver).
      case_bool_decide; [done|]. intros Heq. rewrite Heq in Hv. set_solver.
    + assert (¬ NoDup rest) as Hrest
        by (intros Hnd; apply Hdup; by constructor).
      specialize (IH (v :: E) Hrest). by case_bool_decide.
Qed.

Lemma repeats_NoDup E l :
  NoDup l → (∀ k, k ∈ l → k ∉ E) → repeats E l = [].
Proof.
  revert E. induction l as [|v rest IH]; intros E Hnd Hfresh; [done|].
  cbn [repeats]. apply NoDup_cons in Hnd as [Hv Hnd].
  rewrite bool_decide_eq_false_2 by (apply Hfresh; set_solver).
  apply IH; [done|]. intros k Hk. rewrite not_elem_of_cons. split.
  - intros ->. done.
  - apply Hfresh. set_solver.
Qed.

Lemma repeats_length E l :
  length (repeats E l)
    + size (list_to_set l ∖ list_to_set E : gset string) = length l.
Proof.
  revert E. induction l as [|v rest IH]; intros E.
  - cbn.
    assert ((∅ ∖ list_to_set E : gset string) = ∅) as -> by set_solver.
    by rewrite size_empty.
  - cbn [repeats list_to_set length]. specialize (IH (v :: E)).
    cbn [list_to_set] in IH. case_bool_decide as Hv.
    + assert (({[v]} ∪ list_to_set rest) ∖ list_to_set E
              = (list_to_set rest ∖ ({[v]} ∪ list_to_set E) : gset string))
        as -> by set_solver.
      cbn [length]. lia.
    + assert (({[v]} ∪ list_to_set rest) ∖ list_to_set E
              = ({[v]} ∪ list_to_set rest ∖ ({[v]} ∪ list_to_set E)
                 : gset string)) as ->.
      { apply set_eq. intros k. destruct (decide (k = v)); set_solver. }
      rewrite size_union.
      * rewrite size_singleton. lia.
      * intros k Hk1 Hk2. apply elem_of_difference in Hk2 as [_ Hk2].
        apply Hk2, elem_of_union. by left.
Qed.

Lemma repeats_occurs E l x :
  x ∈ repeats E l → x ∈ l ∧ (x ∈ E ∨ (2 ≤ count_occ String.string_dec l x)%nat).
Proof.
  revert E. induction l as [|v rest IH]; intros E Hx; [set_solver|].
  cbn [repeats] in Hx. cbn [count_occ].
  assert (∀ E', x ∈ repeats E' rest →
                x ∈ rest ∧ (x ∈ E' ∨ (2 ≤ count_occ String.string_dec rest x)%nat)) as IH'
    by (intros E'; apply IH).
  assert (x ∈ rest → (1 ≤ count_occ String.string_dec rest x)%nat) as Hcount.
  { intros Hin. apply list_elem_of_In, (count_occ_In String.string_dec) in Hin. lia. }
  case_bool_decide as Hv.
  - apply elem_of_cons in Hx as [->|Hx]; [set_solver|].
    destruct (IH' _ Hx) as [Hin [Hor|Hor]].
    + split; [set_solver|]. left. set_solver.
    + split; [set_solver|]. right. destruct (String.string_dec v x); lia.
  - destruct (IH' _ Hx) as [Hin [Hor|Hor]].
    + split; [set_solver|]. apply elem_of_cons in Hor as [->|Hor]; [|by left].
      right. specialize (Hcount Hin). destruct (String.string_dec v v); [lia|done].
    + split; [set_solver|]. right. destruct (String.string_dec v x); lia.
Qed.

Lemma repeats_nil_iff E l :
  repeats E l = [] ↔ NoDup l ∧ ∀ k, k ∈ l → k ∉ E.
Proof.
  split.
  - intros Hnil. split.
    + destruct (decide (NoDup l)) as [|Hdup]; [done|].
      by apply (repeats_not_NoDup E) in Hdup.
    + intros k Hk HE.
      pose proof (repeats_elem_of E l k HE Hk) as Hin.
      rewrite Hnil in Hin. set_solver.
  - intros [Hnd Hfresh]. by apply repeats_NoDup.
Qed.

End Duplicates.

(** ** Sets in insertion order *)

Section Sets.

Import JsSet.

Lemma add_elem_of s x y : y ∈ add s x ↔ y ∈ s ∨ y = x.
Proof. unfold add. case_bool_decide; set_solver. Qed.

Lemma add_NoDup s x : NoDup s → NoDup (add s x).
Proof.
  intros Hnd. unfold add. case_bool_decide; [done|].
  apply NoDup_app. repeat split; [done|set_solver|apply NoDup_singleton].
Qed.

Lemma add_all_elem_of s l y : y ∈ add_all s l ↔ y ∈ s ∨ y ∈ l.
Proof.
  unfold add_all. revert s. induction l as [|x l IH]; intros s; cbn.
  - set_solver.
  - rewrite IH, add_elem_of. set_solver.
Qed.

Lemma add_all_NoDup s l : NoDup s → NoDup (add_all s l).
Proof.
  unfold add_all. revert s. induction l as [|x l IH]; intros s Hnd; cbn.
  - done.
  - by apply IH, add_NoDup.
Qed.

Lemma add_all_app s l1 l2 : add_all s (l1 ++ l2) = add_all (add_all s l1) l2.
Proof. unfold add_all. apply fold_left_app. Qed.

Lemma has_add_all l x : has (add_all [] l) x = bool_decide (x ∈ l).
Proof. unfold has. apply bool_decide_ext. rewrite add_all_elem_of. set_solver. Qed.

End Sets.

(** ** The legacy driver as a case analysis *)

Lemma sync_eq db courseInfo questionDB :
  sync db courseInfo questionDB =
    let tags := default [] (courseInfo_tags courseInfo) in
    let duplicateNames := getDuplicatesByKey tags name in
    if (0 <? length duplicateNames)%nat
    then (Throw (Error (duplicate_names_message duplicateNames)),
          mkStore (courseInfo_tags courseInfo) [] [])
    else
      let arr := resolved_tags tags questionDB in
      let call1 := course_tags_call (courseInfo_courseId courseInfo) arr in
      match sync_course_tags db call1.2 with
      | None => (Throw (Rejected "sync_course_tags"),
                 store_with courseInfo arr [call1])
      | Some new_tag_ids =>
          match tagIdsByName_reduce (paramTags_of arr) JsObject.empty 0
                                    new_tag_ids with
          | Throw e => (Throw e, store_with courseInfo arr [call1])
          | Ok tagIdsByName =>
              match for_in_questionDB tagIdsByName questionDB [] with
              | Throw e => (Throw e, store_with courseInfo arr [call1])
              | Ok paramQuestionTags =>
                  let call2 := question_tags_call paramQuestionTags in
                  match sync_question_tags db call2.2 with
                  | None => (Throw (Rejected "sync_question_tags"),
                             store_with courseInfo arr [call1; call2])
                  | Some _ => (Ok (), store_with courseInfo arr [call1; call2])
                  end
              end
          end
      end.
Proof.
  unfold sync, sync_body, store_with, resolved_tags, course_tags_call,
    question_tags_call.
  destruct courseInfo as [[tags|] courseId];
    cbn [courseInfo_tags courseInfo_courseId default snd];
    unfold mbind, M_bind, bind, tags_or_empty, read, push, callAsync, lift,
      throw, mret, M_ret, ret;
    cbn [caller_tags fresh_tags calls default fmap option_fmap option_map
         app];
    match goal with |- context [(0 <? ?n)%nat] => destruct (0 <? n)%nat end;
    try reflexivity;
    cbn [caller_tags fresh_tags calls default fmap option_fmap option_map
         app];
    destruct (sync_course_tags db _); try reflexivity;
    destruct (tagIdsByName_reduce _ _ _ _); try reflexivity;
    destruct (for_in_questionDB _ _ _); try reflexivity;
    cbn [caller_tags fresh_tags calls app];
    destruct (sync_question_tags db _) as [[]|]; reflexivity.
Qed.

Lemma length_positive_false {A} (l : list A) :
  (0 <? length l)%nat = false ↔ l = [].
Proof. destruct l; cbn; split; congruence. Qed.

Lemma length_positive_true {A} (l : list A) :
  (0 <? length l)%nat = true ↔ l ≠ [].
Proof. destruct l; cbn; split; congruence. Qed.

Lemma for_in_questionDB_passes tagIdsByName questionDB acc :
  Forall (λ p, passes tagIdsByName p.2) questionDB →
  for_in_questionDB tagIdsByName questionDB acc
  = Ok (acc ++ map (λ p, association tagIdsByName p.2) questionDB).
Proof.
  revert acc. induction questionDB as [|[qid question] rest IH];
    intros acc Hall; cbn [for_in_questionDB map].
  - by rewrite app_nil_r.
  - apply Forall_cons in Hall as [[Hunknown Hdup] Hall].
    unfold tags_of in Hunknown, Hdup. cbn [snd] in Hunknown, Hdup.
    rewrite Hunknown, Hdup. cbn [length Nat.ltb Nat.leb].
    rewrite IH by done. by rewrite <- app_assoc.
Qed.

Lemma for_in_questionDB_Ok tagIdsByName questionDB acc paramQuestionTags :
  for_in_questionDB tagIdsByName questionDB acc = Ok paramQuestionTags →
  Forall (λ p, passes tagIdsByName p.2) questionDB.
Proof.
  revert acc. induction questionDB as [|[qid question] rest IH];
    intros acc Hok; [constructor|].
  cbn [for_in_questionDB] in Hok.
  destruct (0 <? length (unknownTags_of _ _))%nat eqn:Hunknown; [done|].
  destruct (0 <? length (getDuplicates _))%nat eqn:Hdup; [done|].
  apply length_positive_false in Hunknown, Hdup.
  constructor; [by split|]. by eapply IH.
Qed.

(** The first question that fails a check decides the error. *)
Lemma for_in_questionDB_first_failure tagIdsByName before qid question after acc :
  Forall (λ p, passes tagIdsByName p.2) before →
  ¬ passes tagIdsByName question →
  for_in_questionDB tagIdsByName (before ++ (qid, question) :: after) acc
  = let unknownTags := unknownTags_of tagIdsByName (tags_of question) in
    if (0 <? length unknownTags)%nat
    then Throw (Error (unknown_tags_message qid unknownTags))
    else Throw (Error (duplicate_tags_message qid
                         (getDuplicates (tags_of question)))).
Proof.
  revert acc. induction before as [|[qid' question'] before IH];
    intros acc Hall Hfail.
  - cbn [app for_in_questionDB]. fold (tags_of question).
    destruct (0 <? length (unknownTags_of _ _))%nat eqn:Hunknown; [done|].
    destruct (0 <? length (getDuplicates _))%nat eqn:Hdup; [done|].
    apply length_positive_false in Hunknown, Hdup. destruct Hfail. by split.
  - apply Forall_cons in Hall as [[Hunknown Hdup] Hall].
    cbn [app for_in_questionDB]. fold (tags_of question').
    cbn [snd] in Hunknown, Hdup.
    rewrite Hunknown, Hdup. cbn [length Nat.ltb Nat.leb]. by apply IH.
Qed.

Lemma unknownTags_of_nil tagIdsByName tags :
  unknownTags_of tagIdsByName tags = []
  ↔ ∀ t, t ∈ tags → JsObject.has tagIdsByName t = true.
Proof.
  unfold unknownTags_of. induction tags as [|t tags IH]; cbn [List.filter].
  - set_solver.
  - destruct (JsObject.has tagIdsByName t) eqn:Hhas; cbn [negb].
    + rewrite IH. set_solver.
    + split; [done|]. intros Hall. specialize (Hall t). rewrite Hhas in Hall.
      assert (false = true) by (apply Hall; set_solver). done.
Qed.

Lemma has_own (tagIdsByName : gmap string dbid) t :
  JsObject.has tagIdsByName t = true →
  JsObject.is_prototype_key t = false →
  is_Some (tagIdsByName !! t).
Proof.
  unfold JsObject.has. intros Hhas Hkey. rewrite Hkey, orb_false_r in Hhas.
  by apply bool_decide_eq_true in Hhas.
Qed.

Lemma getDuplicates_not_NoDup l : ¬ NoDup l → getDuplicates l ≠ [].
Proof. rewrite getDuplicates_repeats. apply repeats_not_NoDup. Qed.

(** A question that repeats a tag name stops the loop. *)
Lemma for_in_questionDB_duplicate tagIdsByName questionDB acc qid question :
  (qid, question) ∈ questionDB →
  ¬ NoDup (tags_of question) →
  ∃ e, for_in_questionDB tagIdsByName questionDB acc = Throw e.
Proof.
  intros Hin Hdup.
  destruct (for_in_questionDB tagIdsByName questionDB acc) as [pqt|e] eqn:Hrun;
    [|by exists e].
  apply for_in_questionDB_Ok in Hrun.
  rewrite Forall_forall in Hrun. destruct (Hrun _ Hin) as [_ Hnone].
  by apply getDuplicates_not_NoDup in Hdup.
Qed.

Lemma own_entries_json (tagIdsByName : gmap string dbid) tags :
  Forall (λ t, is_Some (tagIdsByName !! t)) tags →
  map json_of_lookup (map (JsObject.get tagIdsByName) tags)
  = map json_of_id (omap (λ t, tagIdsByName !! t) tags)
  ∧ length (omap (λ t, tagIdsByName !! t) tags) = length tags.
Proof.
  induction tags as [|t tags IH]; intros Hown; [done|].
  apply Forall_cons in Hown as [[id Hid] Hown]. destruct (IH Hown) as [IH1 IH2].
  cbn [map omap list_omap]. unfold JsObject.get at 1. rewrite Hid. cbn.
  split; [by f_equal|by f_equal].
Qed.

Lemma passes_own_entries (tagIdsByName : gmap string dbid) question :
  passes tagIdsByName question →
  Forall (λ t, is_Some (tagIdsByName !! t)) (tags_of question).
Proof.
  intros [Hunknown Hdup]. rewrite unknownTags_of_nil in Hunknown.
  rewrite getDuplicates_repeats, repeats_nil_iff in Hdup.
  destruct Hdup as [_ Hord]. apply Forall_forall. intros t Ht.
  apply has_own; [by apply Hunknown|].
  unfold JsObject.is_prototype_key. apply bool_decide_eq_false. by apply Hord.
Qed.

Lemma own_entries_Forall2 (tagIdsByName : gmap string dbid) tags :
  Forall (λ t, is_Some (tagIdsByName !! t)) tags →
  Forall2 (λ t id, tagIdsByName !! t = Some id) tags
          (omap (λ t, tagIdsByName !! t) tags).
Proof.
  induction tags as [|t tags IH]; intros Hown; [constructor|].
  apply Forall_cons in Hown as [[id Hid] Hown].
  cbn [omap list_omap]. rewrite Hid. constructor; [done|by apply IH].
Qed.

(** ** The reducer that builds the name-to-id dictionary *)

Lemma tagIdsByName_reduce_zip (done_ todo : list Tag) ids acc :
  length ids ≤ length todo →
  tagIdsByName_reduce (paramTags_of (done_ ++ todo)) acc (length done_) ids
  = Ok (fold_left (λ acc p, JsObject.set acc (name p.1) p.2) (zip todo ids) acc).
Proof.
  revert done_ todo acc.
  induction ids as [|id ids IH]; intros done_ todo acc Hlen.
  - by destruct todo.
  - destruct todo as [|tag todo]; [cbn in Hlen; lia|].
    cbn [tagIdsByName_reduce zip zip_with fold_left]. unfold tagIdsByName_step.
    unfold paramTags_of at 1. rewrite list_lookup_fmap.
    rewrite lookup_app_r by lia. rewrite Nat.sub_diag. cbn [lookup list_lookup fmap option_fmap option_map].
    specialize (IH (done_ ++ [tag]) todo (JsObject.set acc (name tag) id)).
    rewrite length_app in IH. cbn [length] in IH.
    rewrite Nat.add_1_r in IH. rewrite <- app_assoc in IH. cbn [app] in IH.
    apply IH. cbn in Hlen. lia.
Qed.

Lemma tagIdsByName_reduce_short (done_ todo : list Tag) ids acc :
  length todo < length ids →
  tagIdsByName_reduce (paramTags_of (done_ ++ todo)) acc (length done_) ids
  = Throw TypeError.
Proof.
  revert done_ ids acc.
  induction todo as [|tag todo IH]; intros done_ ids acc Hlen.
  - destruct ids as [|id ids]; [cbn in Hlen; lia|].
    cbn [tagIdsByName_reduce]. unfold tagIdsByName_step.
    rewrite lookup_ge_None_2; [done|].
    unfold paramTags_of. rewrite length_map, app_nil_r. lia.
  - destruct ids as [|id ids]; [cbn in Hlen; lia|].
    cbn [tagIdsByName_reduce]. unfold tagIdsByName_step.
    unfold paramTags_of at 1. rewrite list_lookup_fmap.
    rewrite lookup_app_r by lia. rewrite Nat.sub_diag. cbn [lookup list_lookup fmap option_fmap option_map].
    specialize (IH (done_ ++ [tag]) ids (JsObject.set acc (name tag) id)).
    rewrite length_app in IH. cbn [length] in IH.
    rewrite Nat.add_1_r in IH. rewrite <- app_assoc in IH. cbn [app] in IH.
    apply IH. cbn in Hlen. lia.
Qed.

(** ** The current driver as a case analysis *)

Lemma syncNew_eq db courseId courseData questionIds :
  syncNew db courseId courseData questionIds =
    let call1 := course_tags_new_call courseId courseData in
    match sync_course_tags_new db call1.2 with
    | None => (Throw (Rejected "sync_course_tags_new"), mkStore None [] [call1])
    | Some newTags =>
        let call2 :=
          question_tags_new_call (tagIdsByName_of newTags) questionIds
                                 courseData in
        match sync_question_tags_new db call2.2 with
        | None => (Throw (Rejected "sync_question_tags_new"),
                   mkStore None [] [call1; call2])
        | Some _ => (Ok (), mkStore None [] [call1; call2])
        end
    end.
Proof.
  unfold syncNew, syncNew_body, course_tags_new_call, question_tags_new_call.
  unfold mbind, M_bind, bind, callOneRowAsync, callAsync.
  cbn [caller_tags fresh_tags calls app snd].
  destruct (sync_course_tags_new db _); [|done].
  cbn [caller_tags fresh_tags calls app].
  destruct (sync_question_tags_new db _) as [[]|]; done.
Qed.

Lemma knownQuestionTagsNames_fold questions known :
  fold_left (λ known q,
               if negb (hasErrors q)
               then JsSet.add_all known (default [] (info_tags (data q)))
               else known)
            (map snd questions) known
  = JsSet.add_all known (valid_question_tag_names questions).
Proof.
  unfold valid_question_tag_names. revert known.
  induction questions as [|[qid question] rest IH]; intros known; [done|].
  cbn [map fold_left flat_map snd]. rewrite IH, add_all_app.
  unfold info_tags_of. by destruct (hasErrors question).
Qed.

Lemma knownQuestionTagsNames_of_eq questions :
  knownQuestionTagsNames_of questions
  = JsSet.add_all [] (valid_question_tag_names questions).
Proof. apply knownQuestionTagsNames_fold. Qed.

Lemma questionTagsParam_fold tagIdsByName questionIds questions acc :
  fold_left (λ questionTagsParam '(qid, question),
               if hasErrors question then questionTagsParam
               else
                 let dedupedQuestionTagNames :=
                   JsSet.add_all [] (default [] (info_tags (data question))) in
                 let questionTagIds :=
                   map (λ t, tagIdsByName !! t) dedupedQuestionTagNames in
                 questionTagsParam
                   ++ [PJson (JArr [json_of_lookup (JsObject.get questionIds qid);
                                    JArr (map json_of_option questionTagIds)])])
            questions acc
  = acc ++ association_params tagIdsByName questionIds questions.
Proof.
  unfold association_params. revert acc.
  induction questions as [|[qid question] rest IH]; intros acc.
  - by rewrite app_nil_r.
  - cbn [fold_left flat_map fst snd]. rewrite IH.
    destruct (hasErrors question); [done|].
    rewrite <- app_assoc. unfold association_param, info_tags_of.
    by rewrite map_map.
Qed.

Lemma questionTagsParam_of_eq tagIdsByName questionIds questions :
  questionTagsParam_of tagIdsByName questionIds questions
  = association_params tagIdsByName questionIds questions.
Proof. apply questionTagsParam_fold. Qed.

Lemma flat_map_valid_questions {B}
    (f : string * InfoFile QuestionJson → list B) questions :
  flat_map (λ p, if hasErrors p.2 then [] else f p) (valid_questions questions)
  = flat_map (λ p, if hasErrors p.2 then [] else f p) questions.
Proof.
  unfold valid_questions.
  induction questions as [|[qid question] rest IH]; [done|].
  cbn [List.filter flat_map snd].
  destruct (hasErrors question) eqn:Herr; cbn [negb]; [done|].
  cbn [flat_map snd]. by rewrite Herr, IH.
Qed.

Lemma syncNew_without_invalid_questions db courseId courseData questionIds :
  syncNew db courseId (without_invalid_questions courseData) questionIds
  = syncNew db courseId courseData questionIds.
Proof.
  rewrite !syncNew_eq.
  unfold course_tags_new_call, question_tags_new_call, without_invalid_questions.
  cbn [course questions snd].
  rewrite !knownQuestionTagsNames_of_eq. unfold valid_question_tag_names.
  rewrite flat_map_valid_questions.
  destruct (sync_course_tags_new db _); [|done].
  rewrite !questionTagsParam_of_eq. unfold association_params.
  by rewrite (flat_map_valid_questions
                (λ p, [association_param _ questionIds p.1 p.2])).
Qed.

(** * The claims *)

(** ** The duplicate detector on ordinary and on inherited names *)

(** On ordinary names the detector returns the repeats of earlier
    occurrences: as many as [len(S) - len(set(S))], each of them met at
    least twice in [S]. *)
Lemma getDuplicates_ordinary l :
  Forall ordinary l →
  getDuplicates l = repeats [] l
  ∧ length (getDuplicates l) = length l - size (list_to_set l : gset string)
  ∧ ∀ x, x ∈ getDuplicates l → 2 ≤ count_occ String.string_dec l x.
Proof.
  intros Hord. rewrite Forall_forall in Hord.
  assert (getDuplicates l = repeats [] l) as Heq.
  { rewrite getDuplicates_repeats. apply repeats_ext. intros k Hk.
    specialize (Hord k Hk). unfold ordinary in Hord. set_solver. }
  rewrite Heq. split; [done|]. split.
  - pose proof (repeats_length [] l) as Hlen. cbn [list_to_set] in Hlen.
    assert ((list_to_set l ∖ ∅ : gset string) = list_to_set l) as Hset
      by set_solver.
    rewrite Hset in Hlen. lia.
  - intros x Hx. apply repeats_occurs in Hx as [_ [Hx|Hx]]; [set_solver|done].
Qed.

Lemma getDuplicates_ordinary_NoDup l :
  Forall ordinary l → NoDup l → getDuplicates l = [].
Proof.
  intros Hord Hnd. rewrite getDuplicates_repeats. apply repeats_NoDup; [done|].
  rewrite Forall_forall in Hord. exact Hord.
Qed.

Example getDuplicates_repeated_names :
  getDuplicates ["a"; "b"; "a"; "c"; "b"; "a"] = ["a"; "b"; "a"].
Proof. vm_compute. reflexivity. Qed.

(** C2. [getDuplicates] is meant to return exactly the elements that repeat
    an earlier occurrence, never a first occurrence.  On the one-element
    sequence [["constructor"]] the code returns that only occurrence: the
    dictionary [seen] is an object literal, and reading the key
    [constructor] from it yields the inherited function, which is truthy.
    The output then has length 1 where [len(S) - len(set(S))] is 0, and its
    element occurs in [S] once. *)
Theorem getDuplicates_inherited_name :
  getDuplicates ["constructor"] = ["constructor"]
  ∧ repeats [] ["constructor"] = []
  ∧ length (getDuplicates ["constructor"]) = 1
  ∧ count_occ String.string_dec ["constructor"] "constructor" = 1.
Proof. vm_compute. auto. Qed.

(** ** The course-level duplicate check of the legacy driver *)

Lemma sync_first_call db courseInfo questionDB :
  let tags := default [] (courseInfo_tags courseInfo) in
  getDuplicatesByKey tags name = [] →
  calls (sync db courseInfo questionDB).2 !! 0
  = Some (course_tags_call (courseInfo_courseId courseInfo)
            (resolved_tags tags questionDB)).
Proof.
  intros tags Hcheck. rewrite sync_eq. fold tags. cbn zeta. rewrite Hcheck.
  cbn [length Nat.ltb Nat.leb]. unfold store_with.
  destruct (sync_course_tags db _); [|by destruct (courseInfo_tags courseInfo)].
  destruct (tagIdsByName_reduce _ _ _ _); [|by destruct (courseInfo_tags courseInfo)].
  destruct (for_in_questionDB _ _ _); [|by destruct (courseInfo_tags courseInfo)].
  destruct (sync_question_tags db _); by destruct (courseInfo_tags courseInfo).
Qed.

Lemma sync_duplicate_names db courseInfo questionDB :
  let tags := default [] (courseInfo_tags courseInfo) in
  ¬ NoDup (map name tags) →
  sync db courseInfo questionDB
  = (Throw (Error (duplicate_names_message (getDuplicatesByKey tags name))),
     mkStore (courseInfo_tags courseInfo) [] []).
Proof.
  intros tags Hdup. rewrite sync_eq. fold tags. cbn zeta.
  apply getDuplicates_not_NoDup, length_positive_true in Hdup.
  unfold getDuplicatesByKey. by rewrite Hdup.
Qed.

Lemma sync_ordinary_distinct_names db courseInfo questionDB :
  let tags := default [] (courseInfo_tags courseInfo) in
  Forall ordinary (map name tags) → NoDup (map name tags) →
  calls (sync db courseInfo questionDB).2 !! 0
  = Some (course_tags_call (courseInfo_courseId courseInfo)
            (resolved_tags tags questionDB)).
Proof.
  intros tags Hord Hnd. apply sync_first_call.
  by apply getDuplicates_ordinary_NoDup.
Qed.

(** C8. The duplicate-name error is meant to be raised if and only if some
    name occurs more than once in the course tag list.  With the single
    declared tag [constructor] the names are distinct, yet the run fails with
    the duplicate-name error before any procedure is called. *)
Theorem sync_distinct_names_rejected :
  let courseInfo :=
    mkCourseInfo (Some [mkTag "constructor" "blue1" "d"]) (IdNum 1) in
  NoDup (map name (default [] (courseInfo_tags courseInfo)))
  ∧ sync Samples.db_ok courseInfo []
    = (Throw (Error "Duplicate tag names found: constructor. Tag names must be unique within the course."),
       mkStore (courseInfo_tags courseInfo) [] []).
Proof.
  split.
  - cbn. apply NoDup_singleton.
  - vm_compute. reflexivity.
Qed.

(** ** Placeholder tags *)

Lemma collect_questionTagNames_fold (questionDB : list (string * Question)) acc :
  fold_left (λ questionTagNames q,
               questionTagNames ++ default [] (question_tags q))
            (map snd questionDB) acc
  = acc ++ flat_map (λ p, tags_of p.2) questionDB.
Proof.
  revert acc. induction questionDB as [|[qid question] rest IH]; intros acc.
  - by rewrite app_nil_r.
  - cbn [map fold_left flat_map snd]. rewrite IH. by rewrite <- app_assoc.
Qed.

Lemma collect_questionTagNames_eq questionDB :
  collect_questionTagNames questionDB = flat_map (λ p, tags_of p.2) questionDB.
Proof. apply collect_questionTagNames_fold. Qed.

(** The pushed names are the references, in question order, to names that
    are not declared. *)
Lemma missingTagNames_eq tags questionDB :
  missingTagNames tags questionDB
  = List.filter (λ n, negb (bool_decide (n ∈ map name tags)))
                (flat_map (λ p, tags_of p.2) questionDB).
Proof.
  unfold missingTagNames. rewrite collect_questionTagNames_eq.
  apply filter_ext. intros n. by rewrite has_add_all.
Qed.

Lemma missingTagNames_elem_of tags questionDB n :
  n ∈ missingTagNames tags questionDB
  ↔ (∃ qid question, (qid, question) ∈ questionDB ∧ n ∈ tags_of question)
    ∧ n ∉ map name tags.
Proof.
  rewrite missingTagNames_eq, list_elem_of_In, filter_In, <- list_elem_of_In.
  rewrite negb_true_iff, bool_decide_eq_false.
  rewrite list_elem_of_In, in_flat_map. split.
  - intros [([qid question] & Hin & Hn) Hnew]. split; [|done].
    exists qid, question. by rewrite !list_elem_of_In.
  - intros [(qid & question & Hin & Hn) Hnew]. split; [|done].
    exists (qid, question). by rewrite <- !list_elem_of_In.
Qed.

Example resolved_tags_one_missing :
  resolved_tags [Samples.tag_x]
    [("q1", mkQuestion (IdNum 10) (Some ["x"; "y"]))]
  = [Samples.tag_x; mkTag "y" "gray1"
       "Auto-generated from use in a question; add this tag to your courseInfo.json file to customize"].
Proof. vm_compute. reflexivity. Qed.

(** C3. One placeholder is meant to be appended per distinct missing name,
    even when several questions reference the same undeclared name.  With
    the declared tag [x] and two questions that both reference the
    undeclared [y], the code pushes two placeholders for [y]: the pushed
    names are the filtered list of references, which keeps repetitions. *)
Theorem sync_placeholder_per_reference :
  let courseInfo := mkCourseInfo (Some [Samples.tag_x]) (IdNum 1) in
  let questionDB :=
    [ ("q1", mkQuestion (IdNum 10) (Some ["x"; "y"]));
      ("q2", mkQuestion (IdNum 11) (Some ["y"])) ] in
  caller_tags (sync Samples.db_ok courseInfo questionDB).2
  = Some [Samples.tag_x; placeholder "y"; placeholder "y"]
  ∧ (sync Samples.db_ok courseInfo questionDB).1 = Ok ().
Proof. vm_compute. auto. Qed.

(** ** The caller's array *)





(** ** Positional pairing of identifiers and names *)


(** ** The current driver: what is sent *)

Lemma valid_question_tag_names_elem_of questions t :
  t ∈ valid_question_tag_names questions
  ↔ ∃ qid question, (qid, question) ∈ questions
                    ∧ hasErrors question = false ∧ t ∈ info_tags_of question.
Proof.
  unfold valid_question_tag_names.
  rewrite list_elem_of_In, in_flat_map. split.
  - intros ([qid question] & Hin & Ht). cbn [snd] in Ht.
    destruct (hasErrors question) eqn:Herr; [destruct Ht|].
    exists qid, question. by rewrite !list_elem_of_In.
  - intros (qid & question & Hin & Herr & Ht). exists (qid, question).
    cbn [snd]. rewrite Herr. by rewrite <- !list_elem_of_In.
Qed.

Lemma syncNew_first_call db courseId courseData questionIds :
  calls (syncNew db courseId courseData questionIds).2 !! 0
  = Some (course_tags_new_call courseId courseData).
Proof.
  rewrite syncNew_eq. cbn zeta.
  destruct (sync_course_tags_new db _); [|done].
  by destruct (sync_question_tags_new db _).
Qed.

Lemma syncNew_second_call db courseId courseData questionIds newTags :
  sync_course_tags_new db (course_tags_new_call courseId courseData).2
  = Some newTags →
  calls (syncNew db courseId courseData questionIds).2 !! 1
  = Some ("sync_question_tags_new",
          [PArray (association_params (tagIdsByName_of newTags) questionIds
                     (questions courseData))]).
Proof.
  intros Hanswer. rewrite syncNew_eq. cbn zeta. rewrite Hanswer.
  unfold question_tags_new_call. rewrite questionTagsParam_of_eq.
  by destruct (sync_question_tags_new db _).
Qed.

(** C5. When the course configuration has errors, the first call of
    [syncNew] carries [false], an empty declared-tag list, the names
    referenced by the questions that loaded without error (each once, in
    order of first reference) and the course id; the questions that have
    errors contribute nothing: the run is the one of the same course data
    without them, and the payload of the second call is built from the
    error-free questions alone. *)
Theorem syncNew_course_errors db courseId courseData questionIds :
  hasErrors (course courseData) = true →
  let names :=
    JsSet.add_all [] (valid_question_tag_names (questions courseData)) in
  calls (syncNew db courseId courseData questionIds).2 !! 0
  = Some ("sync_course_tags_new",
          [PBool false; PArray []; PArray (map PText names); PId courseId])
  ∧ NoDup names
  ∧ (∀ t, t ∈ names
          ↔ ∃ qid question, (qid, question) ∈ questions courseData
                            ∧ hasErrors question = false
                            ∧ t ∈ info_tags_of question)
  ∧ syncNew db courseId (without_invalid_questions courseData) questionIds
    = syncNew db courseId courseData questionIds
  ∧ (∀ newTags,
       sync_course_tags_new db
         [PBool false; PArray []; PArray (map PText names); PId courseId]
       = Some newTags →
       calls (syncNew db courseId courseData questionIds).2 !! 1
       = Some ("sync_question_tags_new",
               [PArray (association_params (tagIdsByName_of newTags)
                          questionIds
                          (valid_questions (questions courseData)))])).
Proof.
  intros Herr names.
  assert (course_tags_new_call courseId courseData
          = ("sync_course_tags_new",
             [PBool false; PArray []; PArray (map PText names); PId courseId]))
    as Hcall.
  { unfold course_tags_new_call. rewrite Herr. cbn [negb].
    by rewrite knownQuestionTagsNames_of_eq. }
  split; [by rewrite syncNew_first_call, Hcall|].
  split; [apply add_all_NoDup, NoDup_nil_2|].
  split.
  { intros t. unfold names. rewrite add_all_elem_of.
    rewrite <- valid_question_tag_names_elem_of. set_solver. }
  split; [apply syncNew_without_invalid_questions|].
  intros newTags Hanswer.
  rewrite (syncNew_second_call _ _ _ _ newTags) by (by rewrite Hcall).
  unfold association_params.
  by rewrite (flat_map_valid_questions
                (λ p, [association_param _ questionIds p.1 p.2])).
Qed.

Lemma syncNew_course_errors_witness :
  let courseData :=
    mkCourseData
      (mkInfoFile true (mkCourseJson [Samples.tag_x]))
      [ ("q1", mkInfoFile false (mkQuestionJson (Some ["t1"])));
        ("q2", mkInfoFile true (mkQuestionJson (Some ["t2"]))) ] in
  calls (syncNew Samples.db_ok (IdNum 7) courseData {["q1" := IdNum 5]}).2 !! 0
  = Some ("sync_course_tags_new",
          [PBool false; PArray []; PArray [PText "t1"]; PId (IdNum 7)]).
Proof.
  intros courseData.
  destruct (syncNew_course_errors Samples.db_ok (IdNum 7) courseData
              {["q1" := IdNum 5]}) as [Hcall _].
  - reflexivity.
  - exact Hcall.
Defined.

(** C10. [syncNew] validates nothing itself: no run ends in an error of the
    driver's own; the only failures are those of the two procedure calls.
    The declared tags of a loaded course configuration are passed through
    one tuple per tag, repeated names included; the tag references of a
    loaded question are deduplicated, and each name is encoded by its entry
    in the returned dictionary, [null] when there is none. *)
Theorem syncNew_validates_nothing db courseId courseData questionIds :
  let run := syncNew db courseId courseData questionIds in
  (∀ message, run.1 ≠ Throw (Error message))
  ∧ run.1 ≠ Throw TypeError
  ∧ (run.1 = Ok ()
     ↔ ∃ newTags,
         sync_course_tags_new db (course_tags_new_call courseId courseData).2
         = Some newTags
         ∧ sync_question_tags_new db
             [PArray (association_params (tagIdsByName_of newTags)
                        questionIds (questions courseData))]
           = Some ())
  ∧ (hasErrors (course courseData) = false →
     ∃ names,
       calls run.2 !! 0
       = Some ("sync_course_tags_new",
               [ PBool true;
                 PArray (courseTags_of (course_tags (data (course courseData))));
                 PArray names; PId courseId ])
       ∧ length (courseTags_of (course_tags (data (course courseData))))
         = length (course_tags (data (course courseData))))
  ∧ (∀ newTags,
       sync_course_tags_new db (course_tags_new_call courseId courseData).2
       = Some newTags →
       calls run.2 !! 1
       = Some ("sync_question_tags_new",
               [PArray (association_params (tagIdsByName_of newTags)
                          questionIds (questions courseData))])).
Proof.
  intros run. split; [|split; [|split; [|split]]].
  - intros message. unfold run. rewrite syncNew_eq. cbn zeta.
    destruct (sync_course_tags_new db _); [|by cbn].
    by destruct (sync_question_tags_new db _); cbn.
  - unfold run. rewrite syncNew_eq. cbn zeta.
    destruct (sync_course_tags_new db _); [|by cbn].
    by destruct (sync_question_tags_new db _); cbn.
  - unfold run. rewrite syncNew_eq. cbn zeta.
    unfold question_tags_new_call. cbn [snd].
    destruct (sync_course_tags_new db _) as [newTags|] eqn:Hfirst.
    + rewrite questionTagsParam_of_eq.
      destruct (sync_question_tags_new db _) as [[]|] eqn:Hsecond; cbn [fst].
      * split; [|done]. intros _. by exists newTags.
      * split; [done|]. intros (newTags' & [= <-] & Hsome). congruence.
    + cbn [fst]. split; [done|]. by intros (newTags' & [=] & _).
  - intros Herr. eexists. unfold run. rewrite syncNew_first_call.
    unfold course_tags_new_call. rewrite Herr. cbn [negb]. split; [done|].
    unfold courseTags_of. by rewrite length_map.
  - intros newTags Hfirst. by apply syncNew_second_call.
Qed.

Lemma syncNew_validates_nothing_witness :
  let courseData :=
    mkCourseData
      (mkInfoFile false (mkCourseJson [Samples.tag_x; Samples.tag_x]))
      [("q1", mkInfoFile false (mkQuestionJson (Some ["t1"; "t1"])))] in
  calls (syncNew Samples.db_silent (IdNum 7) courseData {["q1" := IdNum 5]}).2
    !! 1
  = Some ("sync_question_tags_new",
          [PArray [PJson (JArr [JNum 5; JArr [JNull]])]]).
Proof.
  intros courseData.
  destruct (syncNew_validates_nothing Samples.db_silent (IdNum 7) courseData
              {["q1" := IdNum 5]}) as (_ & _ & _ & _ & Hsecond).
  specialize (Hsecond []). rewrite Hsecond; [|reflexivity].
  vm_compute. reflexivity.
Defined.

(** ** The legacy driver: what is sent *)

(** What a completed legacy run has gone through. *)
Lemma sync_Ok_inv db courseInfo questionDB :
  (sync db courseInfo questionDB).1 = Ok () →
  let tags := default [] (courseInfo_tags courseInfo) in
  let arr := resolved_tags tags questionDB in
  getDuplicatesByKey tags name = []
  ∧ ∃ new_tag_ids tagIdsByName,
      sync_course_tags db
        (course_tags_call (courseInfo_courseId courseInfo) arr).2
      = Some new_tag_ids
      ∧ tagIdsByName_reduce (paramTags_of arr) JsObject.empty 0 new_tag_ids
        = Ok tagIdsByName
      ∧ Forall (λ p, passes tagIdsByName p.2) questionDB
      ∧ calls (sync db courseInfo questionDB).2
        = [ course_tags_call (courseInfo_courseId courseInfo) arr;
            question_tags_call
              (map (λ p, association tagIdsByName p.2) questionDB) ].
Proof.
  intros Hok tags arr. subst tags arr. rewrite sync_eq in Hok |- *.
  cbn zeta in Hok |- *.
  destruct (0 <? length (getDuplicatesByKey _ name)) eqn:Hcheck;
    [by cbn [fst] in Hok|].
  apply length_positive_false in Hcheck. split; [done|].
  destruct (sync_course_tags db _) as [new_tag_ids|] eqn:Hfirst;
    [|by cbn [fst] in Hok].
  destruct (tagIdsByName_reduce _ _ _ _) as [tagIdsByName|] eqn:Hreduce;
    [|by cbn [fst] in Hok].
  destruct (for_in_questionDB _ _ _) as [paramQuestionTags|] eqn:Hloop;
    [|by cbn [fst] in Hok].
  exists new_tag_ids, tagIdsByName.
  pose proof (for_in_questionDB_Ok _ _ _ _ Hloop) as Hall.
  rewrite (for_in_questionDB_passes _ _ _ Hall) in Hloop.
  injection Hloop as <-. cbn [app].
  split; [done|]. split; [exact Hreduce|]. split; [exact Hall|].
  unfold store_with.
  destruct (sync_question_tags db _); by destruct (courseInfo_tags courseInfo).
Qed.

Lemma json_of_paramTags_eq tags :
  json_of_paramTags (paramTags_of tags) = JArr (map name_color_description tags).
Proof. unfold json_of_paramTags, paramTags_of. by rewrite map_map. Qed.

Lemma json_of_paramQuestionTags_eq tagIdsByName
    (questionDB : list (string * Question)) :
  json_of_paramQuestionTags (map (λ p, association tagIdsByName p.2) questionDB)
  = JArr (map (λ p, JArr [ json_of_id (question_id p.2);
                           JArr (map (λ t, json_of_lookup
                                             (JsObject.get tagIdsByName t))
                                     (tags_of p.2)) ])
              questionDB).
Proof.
  unfold json_of_paramQuestionTags, association. rewrite map_map.
  f_equal. apply map_ext. intros [qid question]. cbn [snd]. by rewrite map_map.
Qed.

(** C7, as the claim states it for the current driver: the declared tag [x]
    with colour [blue1] and description [d] is not sent as the tuple
    (name, color, description). *)
Lemma syncNew_tuple_order :
  let courseData :=
    mkCourseData (mkInfoFile false (mkCourseJson [Samples.tag_x])) [] in
  ¬ (calls (syncNew Samples.db_ok (IdNum 7) courseData ∅).2 !! 0
     = Some ("sync_course_tags_new",
             [ PBool true;
               PArray [PJson (name_color_description Samples.tag_x)];
               PArray []; PId (IdNum 7) ])).
Proof.
  intros courseData. rewrite syncNew_first_call. vm_compute. intros [=].
Qed.

(** C7, amended.  The legacy driver sends every resolved tag as the tuple
    (name, color, description) and, when it completes, every question as the
    tuple (question id, identifiers of its tags in order), each identifier
    being the entry of the tag's name in the dictionary built from the
    answer of the first call; the current driver sends every declared tag
    of a loaded course configuration as the tuple (name, description, color)
    and every loaded question as the tuple (question id, identifiers of its
    distinct tags in order of first reference). *)
Theorem encoder_tuples db courseInfo questionDB courseId courseData questionIds :
  let tags := default [] (courseInfo_tags courseInfo) in
  let legacy := sync db courseInfo questionDB in
  let current := syncNew db courseId courseData questionIds in
  getDuplicatesByKey tags name = [] →
  calls legacy.2 !! 0
  = Some ("sync_course_tags",
          [ PJson (JArr (map name_color_description
                             (resolved_tags tags questionDB)));
            PId (courseInfo_courseId courseInfo) ])
  ∧ (legacy.1 = Ok () →
     ∃ new_tag_ids tagIdsByName (sent : list (dbid * list dbid)),
       sync_course_tags db
         (course_tags_call (courseInfo_courseId courseInfo)
            (resolved_tags tags questionDB)).2
       = Some new_tag_ids
       ∧ tagIdsByName_reduce (paramTags_of (resolved_tags tags questionDB))
                             JsObject.empty 0 new_tag_ids
         = Ok tagIdsByName
       ∧ calls legacy.2 !! 1
         = Some ("sync_question_tags",
                 [PJson (JArr (map (λ s, JArr [ json_of_id s.1;
                                                JArr (map json_of_id s.2) ])
                                   sent))])
       ∧ Forall2 (λ p s,
                    s.1 = question_id p.2
                    ∧ Forall2 (λ t id, tagIdsByName !! t = Some id)
                              (tags_of p.2) s.2)
                 questionDB sent)
  ∧ calls current.2 !! 0
    = Some ("sync_course_tags_new",
            [ PBool (negb (hasErrors (course courseData)));
              PArray (if hasErrors (course courseData) then []
                      else map (λ t, PJson (name_description_color t))
                               (course_tags (data (course courseData))));
              PArray (map PText
                        (knownQuestionTagsNames_of (questions courseData)));
              PId courseId ])
  ∧ (∀ newTags,
       sync_course_tags_new db (course_tags_new_call courseId courseData).2
       = Some newTags →
       calls current.2 !! 1
       = Some ("sync_question_tags_new",
               [PArray (flat_map
                          (λ p, if hasErrors p.2 then []
                                else [PJson (JArr
                                        [ json_of_lookup (JsObject.get questionIds p.1);
                                          JArr (map (λ t, json_of_option
                                                       (tagIdsByName_of newTags !! t))
                                                    (JsSet.add_all []
                                                       (info_tags_of p.2))) ])])
                          (questions courseData))])).
Proof.
  intros tags legacy current Hcheck. split; [|split; [|split]].
  - unfold legacy. rewrite sync_first_call by done.
    unfold course_tags_call. by rewrite json_of_paramTags_eq.
  - intros Hok. destruct (sync_Ok_inv _ _ _ Hok)
      as (_ & new_tag_ids & tagIdsByName & Hfirst & Hreduce & Hall & Hcalls).
    exists new_tag_ids, tagIdsByName,
      (map (λ p, (question_id p.2,
                  omap (λ t, tagIdsByName !! t) (tags_of p.2))) questionDB).
    split; [done|]. split; [done|]. rewrite Forall_forall in Hall. split.
    + unfold legacy. rewrite Hcalls. cbn [lookup list_lookup].
      unfold question_tags_call.
      rewrite json_of_paramQuestionTags_eq, map_map. do 5 f_equal.
      apply map_ext_in. intros [qid question] Hin. cbn [fst snd].
      apply list_elem_of_In, Hall, passes_own_entries in Hin. cbn [snd] in Hin.
      destruct (own_entries_json _ _ Hin) as [Hjson _].
      rewrite map_map in Hjson. by rewrite Hjson.
    + apply Forall2_fmap_r, Forall_Forall2_diag, Forall_forall.
      intros [qid question] Hin. cbn [fst snd]. split; [done|].
      apply own_entries_Forall2. by apply (passes_own_entries _ _ (Hall _ Hin)).
  - unfold current. rewrite syncNew_first_call.
    unfold course_tags_new_call, courseTags_of, name_description_color.
    by destruct (hasErrors (course courseData)).
  - intros newTags Hfirst. unfold current.
    by rewrite (syncNew_second_call _ _ _ _ newTags).
Qed.

Lemma encoder_tuples_witness :
  let courseInfo := mkCourseInfo (Some [Samples.tag_x]) (IdNum 1) in
  let questionDB := [("q1", mkQuestion (IdNum 10) (Some ["y"; "x"]))] in
  calls (sync Samples.db_ok courseInfo questionDB).2 !! 0
  = Some ("sync_course_tags",
          [ PJson (JArr [ JArr [JStr "x"; JStr "blue1"; JStr "d"];
                          name_color_description (placeholder "y") ]);
            PId (IdNum 1) ])
  ∧ ∃ (tagIdsByName : gmap string dbid) (sent : list (dbid * list dbid)),
      calls (sync Samples.db_ok courseInfo questionDB).2 !! 1
      = Some ("sync_question_tags",
              [PJson (JArr (map (λ s, JArr [ json_of_id s.1;
                                             JArr (map json_of_id s.2) ])
                                sent))])
      ∧ Forall2 (λ p s,
                   s.1 = question_id p.2
                   ∧ Forall2 (λ t id, tagIdsByName !! t = Some id)
                             (tags_of p.2) s.2)
                questionDB sent.
Proof.
  intros courseInfo questionDB.
  destruct (encoder_tuples Samples.db_ok courseInfo questionDB (IdNum 7)
              (mkCourseData (mkInfoFile false (mkCourseJson [Samples.tag_x])) [])
              ∅) as (Hfirst & Hsecond & _).
  - vm_compute. reflexivity.
  - split; [rewrite Hfirst; vm_compute; reflexivity|].
    destruct Hsecond as (new_tag_ids & tagIdsByName & sent & _ & _ & Hcall & Hsent).
    + vm_compute. reflexivity.
    + by exists tagIdsByName, sent.
Defined.

(** ** Repeated tag names within a question *)

(** C4, as the claim states it for the legacy driver: every question that
    repeats a tag name would be named by the error of the run.  With two
    such questions the run stops at the first one, and the second is not
    named. *)
Lemma sync_names_first_offender_only :
  let courseInfo :=
    mkCourseInfo (Some [mkTag "a" "blue1" "d"; mkTag "b" "red1" "d"])
                 (IdNum 1) in
  let questionDB :=
    [ ("q1", mkQuestion (IdNum 10) (Some ["a"; "a"]));
      ("q2", mkQuestion (IdNum 11) (Some ["b"; "b"])) ] in
  ¬ (∀ qid question,
       (qid, question) ∈ questionDB →
       ¬ NoDup (tags_of question) →
       (sync Samples.db_ok courseInfo questionDB).1
       = Throw (Error (duplicate_tags_message qid
                         (getDuplicates (tags_of question))))).
Proof.
  intros courseInfo questionDB Hclaim.
  specialize (Hclaim "q2" (mkQuestion (IdNum 11) (Some ["b"; "b"]))).
  assert ((sync Samples.db_ok courseInfo questionDB).1
          = Throw (Error "Question q1 has duplicate tags: a")) as Hrun
    by (vm_compute; reflexivity).
  rewrite Hrun in Hclaim.
  assert (Throw (A := ()) (Error "Question q1 has duplicate tags: a")
          = Throw (Error (duplicate_tags_message "q2"
                            (getDuplicates ["b"; "b"])))) as Heq.
  { apply Hclaim.
    - unfold questionDB. set_solver.
    - cbn. intros Hnd. apply NoDup_cons in Hnd as [Hnotin _]. set_solver. }
  vm_compute in Heq. discriminate Heq.
Qed.

Lemma association_param_elem_of tagIdsByName questionIds questions qid question :
  (qid, question) ∈ questions →
  hasErrors question = false →
  association_param tagIdsByName questionIds qid question
  ∈ association_params tagIdsByName questionIds questions.
Proof.
  intros Hin Herr. unfold association_params.
  rewrite list_elem_of_In, in_flat_map. exists (qid, question).
  rewrite <- list_elem_of_In. split; [done|]. cbn [fst snd]. rewrite Herr.
  by left.
Qed.

(** C4, amended.  A question that repeats a tag name makes every legacy run
    fail; the error names that question and its repeated names when the run
    gets as far as its duplicate check, that is when the course-level check
    and the first call have succeeded, the questions enumerated before it
    pass both checks and none of its own tags is unknown.  In the current
    driver no error of the driver's own is raised, and a question that
    loaded without error is encoded with one identifier reference per
    distinct tag name. *)
Theorem duplicate_question_tags (tags : list string) :
  ¬ NoDup tags →
  (∀ db courseInfo before qid question after,
     tags_of question = tags →
     let questionDB := before ++ (qid, question) :: after in
     let declared := default [] (courseInfo_tags courseInfo) in
     let arr := resolved_tags declared questionDB in
     (∃ e, (sync db courseInfo questionDB).1 = Throw e)
     ∧ (∀ new_tag_ids tagIdsByName,
          getDuplicatesByKey declared name = [] →
          sync_course_tags db
            (course_tags_call (courseInfo_courseId courseInfo) arr).2
          = Some new_tag_ids →
          tagIdsByName_reduce (paramTags_of arr) JsObject.empty 0 new_tag_ids
          = Ok tagIdsByName →
          Forall (λ p, passes tagIdsByName p.2) before →
          unknownTags_of tagIdsByName tags = [] →
          (sync db courseInfo questionDB).1
          = Throw (Error (duplicate_tags_message qid (getDuplicates tags)))))
  ∧ getDuplicates tags ≠ []
  ∧ (∀ db courseId courseData questionIds qid question,
       (qid, question) ∈ questions courseData →
       hasErrors question = false →
       info_tags_of question = tags →
       (∀ message,
          (syncNew db courseId courseData questionIds).1 ≠ Throw (Error message))
       ∧ ∀ newTags,
           sync_course_tags_new db (course_tags_new_call courseId courseData).2
           = Some newTags →
           ∃ payload names,
             calls (syncNew db courseId courseData questionIds).2 !! 1
             = Some ("sync_question_tags_new", [PArray payload])
             ∧ PJson (JArr [ json_of_lookup (JsObject.get questionIds qid);
                             JArr (map (λ t, json_of_option
                                               (tagIdsByName_of newTags !! t))
                                       names) ]) ∈ payload
             ∧ NoDup names
             ∧ ∀ t, t ∈ names ↔ t ∈ tags).
Proof.
  intros Hdup. split; [|split].
  - intros db courseInfo before qid question after Htags questionDB declared arr.
    split.
    + rewrite sync_eq. fold declared. cbn zeta.
      destruct (0 <? length _); [by eexists|]. fold arr.
      destruct (sync_course_tags db _); [|by eexists].
      destruct (tagIdsByName_reduce _ _ _ _) as [tagIdsByName|]; [|by eexists].
      destruct (for_in_questionDB_duplicate tagIdsByName questionDB []
                  qid question) as [e He].
      * unfold questionDB. set_solver.
      * by rewrite Htags.
      * rewrite He. by eexists.
    + intros new_tag_ids tagIdsByName Hcheck Hfirst Hreduce Hbefore Hunknown.
      rewrite sync_eq. fold declared. cbn zeta. rewrite Hcheck.
      cbn [length Nat.ltb Nat.leb]. fold arr. rewrite Hfirst, Hreduce.
      unfold questionDB. rewrite for_in_questionDB_first_failure.
      * cbn zeta. by rewrite Htags, Hunknown.
      * done.
      * intros [_ Hnone]. rewrite Htags in Hnone.
        by apply getDuplicates_not_NoDup in Hdup.
  - by apply getDuplicates_not_NoDup.
  - intros db courseId courseData questionIds qid question Hin Herr Htags.
    split.
    + intros message. rewrite syncNew_eq. cbn zeta.
      destruct (sync_course_tags_new db _); [|by cbn].
      by destruct (sync_question_tags_new db _); cbn.
    + intros newTags Hfirst.
      exists (association_params (tagIdsByName_of newTags) questionIds
                (questions courseData)), (JsSet.add_all [] tags).
      split; [by apply syncNew_second_call|].
      split.
      { rewrite <- Htags. by apply association_param_elem_of. }
      split; [apply add_all_NoDup, NoDup_nil_2|].
      intros t. rewrite add_all_elem_of. set_solver.
Qed.

Lemma duplicate_question_tags_witness :
  let courseInfo := mkCourseInfo (Some [Samples.tag_x]) (IdNum 1) in
  let questionDB := [("q1", mkQuestion (IdNum 10) (Some ["x"; "x"]))] in
  (sync Samples.db_ok courseInfo questionDB).1
  = Throw (Error (duplicate_tags_message "q1" (getDuplicates ["x"; "x"]))).
Proof.
  intros courseInfo questionDB.
  assert (¬ NoDup ["x"; "x"]) as Hdup.
  { intros Hnd. apply NoDup_cons in Hnd as [Hnotin _]. set_solver. }
  destruct (duplicate_question_tags ["x"; "x"] Hdup) as [Hlegacy _].
  destruct (Hlegacy Samples.db_ok courseInfo []
              "q1" (mkQuestion (IdNum 10) (Some ["x"; "x"])) [] eq_refl)
    as [_ Hnamed].
  apply (Hnamed [IdNum 1] {["x" := IdNum 1]}).
  - vm_compute. reflexivity.
  - vm_compute. reflexivity.
  - reflexivity.
  - constructor.
  - vm_compute. reflexivity.
Defined.

(** ** Coverage of the name-to-id dictionary *)

(** C1, as the claim states it for the current driver: either the
    dictionary built from the answer of the first call has an entry for
    every tag name of the processed questions, or the run fails.  When the
    answer lacks the name [t1], the run completes all the same. *)
Lemma syncNew_encodes_unresolved_name :
  let courseData :=
    mkCourseData (mkInfoFile false (mkCourseJson []))
                 [("q1", mkInfoFile false (mkQuestionJson (Some ["t1"])))] in
  let run := syncNew Samples.db_silent (IdNum 7) courseData {["q1" := IdNum 5]} in
  ¬ ((∀ newTags,
        sync_course_tags_new Samples.db_silent
          (course_tags_new_call (IdNum 7) courseData).2 = Some newTags →
        ∀ t, t ∈ valid_question_tag_names (questions courseData) →
             is_Some (tagIdsByName_of newTags !! t))
     ∨ ∃ e, run.1 = Throw e).
Proof.
  intros courseData run [Hcovers|[e Hfails]].
  - destruct (Hcovers [] eq_refl "t1") as [id Hid].
    + unfold courseData. cbn. set_solver.
    + cbn in Hid. by rewrite lookup_empty in Hid.
  - vm_compute in Hfails. discriminate Hfails.
Qed.

(** C1, amended.  A legacy run that completes has built, from the answer of
    the first call, a dictionary with an entry for every tag name referenced
    by any question; a run in which some referenced name has no entry in
    the dictionary fails with an error.  The current driver makes no such
    check: it completes whenever the two calls succeed, and its second call
    carries, for every question that loaded without error, the identifiers
    found for its tag names with [null] in the place of every name that has
    no entry. *)
Theorem sync_resolves_or_fails db courseInfo questionDB :
  let arr :=
    resolved_tags (default [] (courseInfo_tags courseInfo)) questionDB in
  ((sync db courseInfo questionDB).1 = Ok () →
   ∃ new_tag_ids tagIdsByName,
     sync_course_tags db
       (course_tags_call (courseInfo_courseId courseInfo) arr).2
     = Some new_tag_ids
     ∧ tagIdsByName_reduce (paramTags_of arr) JsObject.empty 0 new_tag_ids
       = Ok tagIdsByName
     ∧ ∀ qid question t,
         (qid, question) ∈ questionDB → t ∈ tags_of question →
         is_Some (tagIdsByName !! t))
  ∧ (∀ new_tag_ids (tagIdsByName : gmap string dbid) qid question t,
       sync_course_tags db
         (course_tags_call (courseInfo_courseId courseInfo) arr).2
       = Some new_tag_ids →
       tagIdsByName_reduce (paramTags_of arr) JsObject.empty 0 new_tag_ids
       = Ok tagIdsByName →
       (qid, question) ∈ questionDB → t ∈ tags_of question →
       tagIdsByName !! t = None →
       ∃ e, (sync db courseInfo questionDB).1 = Throw e)
  ∧ (∀ courseId courseData questionIds newTags,
       sync_course_tags_new db (course_tags_new_call courseId courseData).2
       = Some newTags →
       sync_question_tags_new db
         [PArray (association_params (tagIdsByName_of newTags) questionIds
                    (questions courseData))]
       = Some () →
       (syncNew db courseId courseData questionIds).1 = Ok ()
       ∧ ∃ payload,
           calls (syncNew db courseId courseData questionIds).2 !! 1
           = Some ("sync_question_tags_new", [PArray payload])
           ∧ ∀ qid question,
               (qid, question) ∈ questions courseData →
               hasErrors question = false →
               PJson (JArr
                        [ json_of_lookup (JsObject.get questionIds qid);
                          JArr (map (λ t,
                                       match tagIdsByName_of newTags !! t with
                                       | Some id => json_of_id id
                                       | None => JNull
                                       end)
                                    (JsSet.add_all [] (info_tags_of question))) ])
               ∈ payload).
Proof.
  intros arr.
  assert ((sync db courseInfo questionDB).1 = Ok () →
          ∃ new_tag_ids tagIdsByName,
            sync_course_tags db
              (course_tags_call (courseInfo_courseId courseInfo) arr).2
            = Some new_tag_ids
            ∧ tagIdsByName_reduce (paramTags_of arr) JsObject.empty 0 new_tag_ids
              = Ok tagIdsByName
            ∧ ∀ qid question t,
                (qid, question) ∈ questionDB → t ∈ tags_of question →
                is_Some (tagIdsByName !! t)) as Hlegacy.
  { intros Hok. destruct (sync_Ok_inv _ _ _ Hok)
      as (_ & new_tag_ids & tagIdsByName & Hfirst & Hreduce & Hall & _).
    exists new_tag_ids, tagIdsByName. split; [done|]. split; [done|].
    intros qid question t Hin Ht.
    rewrite Forall_forall in Hall.
    pose proof (passes_own_entries _ _ (Hall _ Hin)) as Hown.
    rewrite Forall_forall in Hown. by apply Hown. }
  split; [done|]. split.
  - intros new_tag_ids tagIdsByName qid question t Hfirst Hreduce Hin Ht Hnone.
    destruct (sync db courseInfo questionDB).1 as [[]|e] eqn:Hrun;
      [|by exists e].
    destruct (Hlegacy eq_refl) as (ids & m & Hfirst' & Hreduce' & Hentries).
    rewrite Hfirst in Hfirst'. injection Hfirst' as <-.
    rewrite Hreduce in Hreduce'. injection Hreduce' as <-.
    destruct (Hentries _ _ _ Hin Ht) as [id Hid]. congruence.
  - intros courseId courseData questionIds newTags Hfirst Hsecond. split.
    + rewrite syncNew_eq. cbn zeta. rewrite Hfirst.
      unfold question_tags_new_call. cbn [snd].
      by rewrite questionTagsParam_of_eq, Hsecond.
    + exists (association_params (tagIdsByName_of newTags) questionIds
                (questions courseData)).
      split; [by apply syncNew_second_call|].
      intros qid question Hin Herr.
      by apply (association_param_elem_of (tagIdsByName_of newTags) questionIds).
Qed.

Lemma sync_resolves_or_fails_witness :
  (∃ (tagIdsByName : gmap string dbid),
     tagIdsByName_reduce
       (paramTags_of
          (resolved_tags [Samples.tag_x]
             [("q1", mkQuestion (IdNum 10) (Some ["x"; "y"]))]))
       JsObject.empty 0 [IdNum 1; IdNum 2]
     = Ok tagIdsByName
     ∧ is_Some (tagIdsByName !! "y"))
  ∧ PJson (JArr [JNum 5; JArr [JNull]])
    ∈ association_params (tagIdsByName_of []) {["q1" := IdNum 5]}
        [("q1", mkInfoFile false (mkQuestionJson (Some ["t1"])))].
Proof.
  destruct (sync_resolves_or_fails Samples.db_ok
              (mkCourseInfo (Some [Samples.tag_x]) (IdNum 1))
              [("q1", mkQuestion (IdNum 10) (Some ["x"; "y"]))])
    as (Hlegacy & _ & _).
  destruct (sync_resolves_or_fails Samples.db_silent
              (mkCourseInfo (Some [Samples.tag_x]) (IdNum 1)) [])
    as (_ & _ & Hcurrent).
  split.
  - destruct Hlegacy as (new_tag_ids & tagIdsByName & Hfirst & Hreduce & Hentries);
      [vm_compute; reflexivity|].
    vm_compute in Hfirst. injection Hfirst as <-.
    exists tagIdsByName. split; [exact Hreduce|].
    apply (Hentries "q1" (mkQuestion (IdNum 10) (Some ["x"; "y"]))).
    + set_solver.
    + cbn. set_solver.
  - destruct (Hcurrent (IdNum 7)
                (mkCourseData (mkInfoFile false (mkCourseJson []))
                   [("q1", mkInfoFile false (mkQuestionJson (Some ["t1"])))])
                {["q1" := IdNum 5]} [] eq_refl eq_refl)
      as (_ & payload & Hcall & Hsent).
    vm_compute in Hcall. injection Hcall as <-.
    pose proof (Hsent "q1" (mkInfoFile false (mkQuestionJson (Some ["t1"])))
                  ltac:(set_solver) eq_refl) as Hnull.
    vm_compute in Hnull. vm_compute. exact Hnull.
Defined.

(** * Further properties of the code *)

(** ** The duplicate detector, exactly *)

Lemma repeats_count E l x :
  count_occ String.string_dec (repeats E l) x
  = if bool_decide (x ∈ E) then count_occ String.string_dec l x
    else count_occ String.string_dec l x - 1.
Proof.
  revert E. induction l as [|v rest IH]; intros E.
  - cbn. by case_bool_decide.
  - cbn [repeats]. case_bool_decide as Hv.
    + cbn [count_occ]. rewrite IH.
      destruct (String.string_dec v x) as [->|Hne].
      * rewrite !bool_decide_eq_true_2 by set_solver. done.
      * rewrite (bool_decide_ext (x ∈ v :: E) (x ∈ E)) by set_solver. done.
    + cbn [count_occ]. rewrite IH.
      destruct (String.string_dec v x) as [->|Hne].
      * rewrite bool_decide_eq_true_2 by set_solver.
        rewrite bool_decide_eq_false_2 by done. lia.
      * rewrite (bool_decide_ext (x ∈ v :: E) (x ∈ E)) by set_solver. done.
Qed.

Lemma repeats_sublist E l : repeats E l `sublist_of` l.
Proof.
  revert E. induction l as [|v rest IH]; intros E; [done|].
  cbn [repeats]. case_bool_decide.
  - by apply sublist_skip.
  - by apply sublist_cons.
Qed.

(** X1. [getDuplicates] keeps the order of its input and reports every
    value once per occurrence after the first one; a value that is a
    property name of [Object.prototype] is reported at every occurrence,
    the first included. *)
Theorem getDuplicates_count l x :
  getDuplicates l `sublist_of` l
  ∧ count_occ String.string_dec (getDuplicates l) x
    = if bool_decide (x ∈ JsObject.prototype_keys)
      then count_occ String.string_dec l x
      else count_occ String.string_dec l x - 1.
Proof.
  rewrite getDuplicates_repeats. split.
  - apply repeats_sublist.
  - apply repeats_count.
Qed.

(** X2. The test [getDuplicates(arr).length > 0] of the two legacy checks
    passes exactly on the arrays whose values are pairwise distinct and
    none of which is a property name of [Object.prototype]. *)
Theorem getDuplicates_nil_iff l :
  (0 <? length (getDuplicates l)) = false ↔ NoDup l ∧ Forall ordinary l.
Proof.
  rewrite length_positive_false, getDuplicates_repeats, repeats_nil_iff.
  by rewrite Forall_forall.
Qed.

(** ** Deduplication by a [Set] *)

Lemma add_all_repeats_perm s l :
  NoDup s → JsSet.add_all s l ++ repeats s l ≡ₚ s ++ l.
Proof.
  revert s. induction l as [|v rest IH]; intros s Hnd.
  - cbn. by rewrite !app_nil_r.
  - unfold JsSet.add_all. cbn [fold_left repeats].
    fold (JsSet.add_all (JsSet.add s v) rest). unfold JsSet.add.
    case_bool_decide as Hv.
    + rewrite (repeats_ext (v :: s) s rest) by set_solver.
      rewrite <- Permutation_middle, IH by done.
      by rewrite Permutation_middle.
    + rewrite (repeats_ext (v :: s) (s ++ [v]) rest) by set_solver.
      rewrite IH.
      * by rewrite <- app_assoc.
      * apply NoDup_app. split; [done|]. split; [set_solver|].
        apply NoDup_singleton.
Qed.

Lemma add_all_sublist s l : JsSet.add_all s l `sublist_of` s ++ l.
Proof.
  revert s. induction l as [|v rest IH]; intros s.
  - cbn. by rewrite app_nil_r.
  - unfold JsSet.add_all. cbn [fold_left].
    fold (JsSet.add_all (JsSet.add s v) rest). unfold JsSet.add.
    case_bool_decide.
    + etrans; [apply IH|]. apply sublist_app; [done|]. by apply sublist_cons.
    + etrans; [apply IH|]. by rewrite <- app_assoc.
Qed.

Lemma add_all_NoDup_id s l : NoDup (s ++ l) → JsSet.add_all s l = s ++ l.
Proof.
  revert s. induction l as [|v rest IH]; intros s Hnd.
  - cbn. by rewrite app_nil_r.
  - unfold JsSet.add_all. cbn [fold_left].
    fold (JsSet.add_all (JsSet.add s v) rest). unfold JsSet.add.
    apply NoDup_app in Hnd as (Hs & Hdisj & Hl).
    rewrite bool_decide_eq_false_2 by (intros Hv; apply (Hdisj v Hv); set_solver).
    rewrite IH; [by rewrite <- app_assoc|].
    rewrite <- app_assoc. cbn [app]. apply NoDup_app. done.
Qed.

(** X3. On names that are not inherited, what the [Set] of the current
    driver keeps and what [getDuplicates] of the legacy driver reports
    split the array: together they are a rearrangement of it, so the
    references the current driver drops silently are exactly those the
    legacy driver rejects. *)
Theorem dedup_duplicates_partition l :
  Forall ordinary l →
  JsSet.add_all [] l ++ getDuplicates l ≡ₚ l
  ∧ length (JsSet.add_all [] l) + length (getDuplicates l) = length l.
Proof.
  intros Hord.
  assert (JsSet.add_all [] l ++ getDuplicates l ≡ₚ l) as Hperm.
  { destruct (getDuplicates_ordinary l Hord) as [-> _].
    apply (add_all_repeats_perm [] l), NoDup_nil_2. }
  split; [done|]. by rewrite <- length_app, Hperm.
Qed.

Lemma dedup_duplicates_partition_witness :
  JsSet.add_all [] ["a"; "b"; "a"] ++ getDuplicates ["a"; "b"; "a"]
  ≡ₚ ["a"; "b"; "a"].
Proof.
  apply dedup_duplicates_partition.
  repeat constructor; unfold ordinary, JsObject.prototype_keys; set_solver.
Defined.

Lemma first_occurrence (l : list string) x :
  x ∈ l → ∃ a, l !! a = Some x ∧ x ∉ take a l.
Proof.
  induction l as [|y l IH]; intros Hx; [set_solver|].
  destruct (decide (x = y)) as [->|Hne].
  - exists 0. split; [done|]. cbn. set_solver.
  - destruct IH as (a & Ha & Hfirst); [set_solver|].
    exists (S a). split; [done|]. cbn [take]. set_solver.
Qed.

Lemma first_occurrence_app (l : list string) z a x :
  l !! a = Some x → x ∉ take a l →
  (l ++ [z]) !! a = Some x ∧ x ∉ take a (l ++ [z]).
Proof.
  intros Ha Hfirst. pose proof (lookup_lt_Some _ _ _ Ha) as Hlt.
  split; [by apply lookup_app_l_Some|]. by rewrite take_app_le by lia.
Qed.

Lemma add_all_first_order (l : list string) i j x y :
  i < j →
  JsSet.add_all [] l !! i = Some x → JsSet.add_all [] l !! j = Some y →
  ∃ a b, a < b ∧ l !! a = Some x ∧ (x ∉ take a l)
         ∧ l !! b = Some y ∧ (y ∉ take b l).
Proof.
  revert i j x y. induction l as [|z l IH] using rev_ind;
    intros i j x y Hij Hi Hj; [done|].
  rewrite add_all_app in Hi, Hj. unfold JsSet.add_all at 1 in Hi.
  unfold JsSet.add_all at 1 in Hj. cbn [fold_left] in Hi, Hj.
  unfold JsSet.add in Hi, Hj. case_bool_decide as Hz.
  - destruct (IH _ _ _ _ Hij Hi Hj) as (a & b & Hab & Ha & Hfa & Hb & Hfb).
    exists a, b. split; [done|].
    destruct (first_occurrence_app l z a x Ha Hfa).
    destruct (first_occurrence_app l z b y Hb Hfb). done.
  - assert (i < length (JsSet.add_all [] l)) as Hilt.
    { apply lookup_lt_Some in Hj. rewrite length_app in Hj. cbn in Hj. lia. }
    rewrite lookup_app_l in Hi by done.
    destruct (decide (j < length (JsSet.add_all [] l))) as [Hjlt|Hjge].
    + rewrite lookup_app_l in Hj by done.
      destruct (IH _ _ _ _ Hij Hi Hj) as (a & b & Hab & Ha & Hfa & Hb & Hfb).
      exists a, b. split; [done|].
      destruct (first_occurrence_app l z a x Ha Hfa).
      destruct (first_occurrence_app l z b y Hb Hfb). done.
    + rewrite lookup_app_r in Hj by lia.
      apply list_lookup_singleton_Some in Hj as [_ <-].
      assert (x ∈ l) as Hx.
      { apply list_elem_of_lookup_2 in Hi. rewrite add_all_elem_of in Hi.
        set_solver. }
      destruct (first_occurrence l x Hx) as (a & Ha & Hfa).
      exists a, (length l). split; [by eapply lookup_lt_Some|].
      destruct (first_occurrence_app l z a x Ha Hfa). split; [done|].
      split; [done|]. split.
      * rewrite lookup_app_r by lia. by rewrite Nat.sub_diag.
      * rewrite take_app_length. rewrite add_all_elem_of in Hz. set_solver.
Qed.

(** X4. The third parameter of [sync_course_tags_new] lists every tag name
    referenced by a question that loaded without error, declared in the
    course or not, once and in order of first reference: two names of the
    list stand in the order of their first occurrences among the
    references.  When no name is referenced twice it is the list of
    references itself. *)
Theorem knownQuestionTagsNames_first_references questions :
  let references := valid_question_tag_names questions in
  let names := knownQuestionTagsNames_of questions in
  NoDup names
  ∧ (∀ t, t ∈ names ↔ t ∈ references)
  ∧ (∀ i j x y,
       i < j → names !! i = Some x → names !! j = Some y →
       ∃ a b, a < b
              ∧ references !! a = Some x ∧ (x ∉ take a references)
              ∧ references !! b = Some y ∧ (y ∉ take b references))
  ∧ (NoDup references → names = references).
Proof.
  intros references names. unfold names.
  rewrite knownQuestionTagsNames_of_eq. fold references.
  split; [apply add_all_NoDup, NoDup_nil_2|].
  split; [|split].
  - intros t. rewrite add_all_elem_of. set_solver.
  - apply add_all_first_order.
  - intros Hnd. by apply (add_all_NoDup_id []).
Qed.

Lemma knownQuestionTagsNames_first_references_witness :
  knownQuestionTagsNames_of
    [ ("q1", mkInfoFile false (mkQuestionJson (Some ["t1"; "t2"])));
      ("q2", mkInfoFile true (mkQuestionJson (Some ["t3"]))) ]
  = ["t1"; "t2"].
Proof.
  destruct (knownQuestionTagsNames_first_references
              [ ("q1", mkInfoFile false (mkQuestionJson (Some ["t1"; "t2"])));
                ("q2", mkInfoFile true (mkQuestionJson (Some ["t3"]))) ])
    as (_ & _ & _ & Hid).
  apply Hid. cbn. apply NoDup_cons. split; [set_solver|]. apply NoDup_singleton.
Defined.

(** ** The dictionary of the current driver *)

Lemma fold_insert_other (newTags : list (string * dbid))
    (acc : gmap string dbid) n :
  n ∉ map fst newTags →
  fold_left (λ acc '(k, id), <[k := id]> acc) newTags acc !! n = acc !! n.
Proof.
  revert acc. induction newTags as [|[k id] rest IH]; intros acc Hn; [done|].
  cbn [fold_left]. rewrite IH by set_solver.
  apply lookup_insert_ne. set_solver.
Qed.

Lemma fold_insert_Some (newTags : list (string * dbid))
    (acc : gmap string dbid) n id :
  fold_left (λ acc '(k, id), <[k := id]> acc) newTags acc !! n = Some id →
  acc !! n = Some id ∨ (n, id) ∈ newTags.
Proof.
  revert acc. induction newTags as [|[k d] rest IH]; intros acc Hn; [by left|].
  cbn [fold_left] in Hn. destruct (IH _ Hn) as [Hacc|Hin]; [|set_solver].
  destruct (decide (k = n)) as [->|Hne].
  - rewrite lookup_insert_eq in Hacc. injection Hacc as ->. set_solver.
  - rewrite lookup_insert_ne in Hacc by done. by left.
Qed.

Lemma fold_insert_is_Some (newTags : list (string * dbid))
    (acc : gmap string dbid) n :
  n ∈ map fst newTags →
  is_Some (fold_left (λ acc '(k, id), <[k := id]> acc) newTags acc !! n).
Proof.
  revert acc. induction newTags as [|[k d] rest IH]; intros acc Hn;
    [set_solver|].
  cbn [fold_left]. destruct (decide (n ∈ map fst rest)) as [Hin|Hnin].
  - by apply IH.
  - rewrite fold_insert_other by done.
    assert (n = k) as -> by set_solver. rewrite lookup_insert_eq. by eexists.
Qed.

(** X5. The dictionary [tagIdsByName] of the current driver holds nothing
    but the returned pairs: a name without pair has no entry, an entry is
    one of the returned pairs, and when a name is returned several times
    the last pair wins. *)
Theorem tagIdsByName_of_pairs (newTags : list (string * dbid)) :
  (∀ n, n ∉ map fst newTags → tagIdsByName_of newTags !! n = None)
  ∧ (∀ n id, tagIdsByName_of newTags !! n = Some id → (n, id) ∈ newTags)
  ∧ (∀ before n id after,
       newTags = before ++ (n, id) :: after →
       n ∉ map fst after →
       tagIdsByName_of newTags !! n = Some id).
Proof.
  unfold tagIdsByName_of. split; [|split].
  - intros n Hn. by rewrite fold_insert_other.
  - intros n id Hn. apply fold_insert_Some in Hn as [Hempty|Hin]; [|done].
    by rewrite lookup_empty in Hempty.
  - intros before n id after -> Hlast.
    rewrite fold_left_app. cbn [fold_left].
    rewrite fold_insert_other by done. apply lookup_insert_eq.
Qed.

Lemma tagIdsByName_of_pairs_witness :
  tagIdsByName_of [("x", IdNum 1); ("y", IdNum 2); ("x", IdNum 3)] !! "x"
  = Some (IdNum 3).
Proof.
  destruct (tagIdsByName_of_pairs
              [("x", IdNum 1); ("y", IdNum 2); ("x", IdNum 3)])
    as (_ & _ & Hlast).
  apply (Hlast [("x", IdNum 1); ("y", IdNum 2)] "x" (IdNum 3) []).
  - reflexivity.
  - cbn. set_solver.
Defined.

(** X6. When the answer of [sync_course_tags_new] names every tag that
    was sent in the third parameter, every tag reference of every question
    that loaded without error resolves to a returned identifier: no
    association of the second call holds [null]. *)
Theorem syncNew_resolves_returned_names
    (newTags : list (string * dbid)) questions :
  (∀ t, t ∈ knownQuestionTagsNames_of questions → t ∈ map fst newTags) →
  ∀ qid question t,
    (qid, question) ∈ questions → hasErrors question = false →
    t ∈ JsSet.add_all [] (info_tags_of question) →
    ∃ id, (t, id) ∈ newTags
          ∧ tagIdsByName_of newTags !! t = Some id
          ∧ json_of_option (tagIdsByName_of newTags !! t) = json_of_id id.
Proof.
  intros Hcovers qid question t Hin Herr Ht.
  assert (t ∈ map fst newTags) as Hnamed.
  { apply Hcovers. rewrite knownQuestionTagsNames_of_eq, add_all_elem_of.
    right. apply valid_question_tag_names_elem_of. exists qid, question.
    rewrite add_all_elem_of in Ht. set_solver. }
  destruct (fold_insert_is_Some newTags ∅ t Hnamed) as [id Hid].
  exists id. fold (tagIdsByName_of newTags) in Hid.
  split; [|by rewrite Hid].
  apply fold_insert_Some in Hid as [Hempty|Hpair]; [|done].
  by rewrite lookup_empty in Hempty.
Qed.

Lemma syncNew_resolves_returned_names_witness :
  ∃ id, ("t1", id) ∈ [("t1", IdNum 4)]
        ∧ tagIdsByName_of [("t1", IdNum 4)] !! "t1" = Some id
        ∧ json_of_option (tagIdsByName_of [("t1", IdNum 4)] !! "t1")
          = json_of_id id.
Proof.
  apply (syncNew_resolves_returned_names [("t1", IdNum 4)]
           [("q1", mkInfoFile false (mkQuestionJson (Some ["t1"; "t1"])))]
           ltac:(vm_compute; set_solver)
           "q1" (mkInfoFile false (mkQuestionJson (Some ["t1"; "t1"])))).
  - set_solver.
  - reflexivity.
  - vm_compute. set_solver.
Defined.

(** X7. The payload of [sync_question_tags_new] has one entry per question
    that loaded without error, in enumeration order; the entry of a
    question holds its id in [questionIds] and the identifiers found for a
    list of its tag names that has each name once and keeps their order;
    for a question whose tags are pairwise distinct that list is the
    question's own tag list. *)
Theorem questionTagsParam_distinct_tags (tagIdsByName questionIds : gmap string dbid)
    questions :
  Forall2 (λ p entry,
             ∃ names,
               entry
               = PJson (JArr [ json_of_lookup (JsObject.get questionIds p.1);
                               JArr (map (λ t, json_of_option
                                                 (tagIdsByName !! t))
                                         names) ])
               ∧ NoDup names
               ∧ names `sublist_of` info_tags_of p.2
               ∧ (∀ t, t ∈ names ↔ t ∈ info_tags_of p.2)
               ∧ (NoDup (info_tags_of p.2) → names = info_tags_of p.2))
          (valid_questions questions)
          (questionTagsParam_of tagIdsByName questionIds questions).
Proof.
  rewrite questionTagsParam_of_eq. unfold association_params, valid_questions.
  induction questions as [|[qid question] rest IH]; [constructor|].
  cbn [flat_map List.filter fst snd].
  destruct (hasErrors question); cbn [negb app]; [done|].
  constructor; [|done]. cbn [fst snd].
  exists (JsSet.add_all [] (info_tags_of question)).
  split; [done|]. split; [apply add_all_NoDup, NoDup_nil_2|].
  split; [apply (add_all_sublist [])|]. split.
  - intros t. rewrite add_all_elem_of. set_solver.
  - intros Hnd. by apply (add_all_NoDup_id []).
Qed.

(** ** The dictionary of the legacy driver *)

Lemma fold_set_pairs_other (pairs : list (Tag * dbid))
    (acc : gmap string dbid) n :
  n ∉ map (λ p, name p.1) pairs →
  fold_left (λ acc p, JsObject.set acc (name p.1) p.2) pairs acc !! n
  = acc !! n.
Proof.
  revert acc. induction pairs as [|[t d] rest IH]; intros acc Hn; [done|].
  cbn [fold_left fst snd]. rewrite IH by set_solver.
  unfold JsObject.set. case_decide; [done|].
  apply lookup_insert_ne. set_solver.
Qed.

Lemma fold_set_pairs_Some (pairs : list (Tag * dbid))
    (acc : gmap string dbid) n id :
  fold_left (λ acc p, JsObject.set acc (name p.1) p.2) pairs acc !! n
  = Some id →
  acc !! n = Some id ∨ ∃ tag, (tag, id) ∈ pairs ∧ name tag = n ∧ n ≠ "__proto__".
Proof.
  revert acc. induction pairs as [|[t d] rest IH]; intros acc Hn; [by left|].
  cbn [fold_left fst snd] in Hn.
  destruct (IH _ Hn) as [Hacc|(tag & Hin & Hname & Hproto)].
  - unfold JsObject.set in Hacc. case_decide as Hp; [by left|].
    destruct (decide (name t = n)) as [<-|Hne].
    + rewrite lookup_insert_eq in Hacc. injection Hacc as ->.
      right. exists t. set_solver.
    + rewrite lookup_insert_ne in Hacc by done. by left.
  - right. exists tag. set_solver.
Qed.

Lemma fold_set_pairs_is_Some (pairs : list (Tag * dbid))
    (acc : gmap string dbid) n :
  n ∈ map (λ p, name p.1) pairs → n ≠ "__proto__" →
  is_Some (fold_left (λ acc p, JsObject.set acc (name p.1) p.2) pairs acc !! n).
Proof.
  revert acc. induction pairs as [|[t d] rest IH]; intros acc Hn Hproto;
    [set_solver|].
  cbn [fold_left fst snd].
  destruct (decide (n ∈ map (λ p, name p.1) rest)) as [Hin|Hnin].
  - by apply IH.
  - rewrite fold_set_pairs_other by done.
    assert (n = name t) as -> by set_solver.
    unfold JsObject.set. case_decide; [done|].
    rewrite lookup_insert_eq. by eexists.
Qed.

Lemma elem_of_zip_lookup (arr : list Tag) (ids : list dbid) tag id :
  (tag, id) ∈ zip arr ids ↔ ∃ i, arr !! i = Some tag ∧ ids !! i = Some id.
Proof.
  rewrite list_elem_of_lookup. split.
  - intros [i Hi]. exists i.
    apply lookup_zip_with_Some in Hi as (t & d & [= -> ->] & Ht & Hd). done.
  - intros (i & Ht & Hd). exists i. apply lookup_zip_with_Some. by exists tag, id.
Qed.

Lemma tagIdsByName_reduce_Ok arr (ids : list dbid) tagIdsByName :
  tagIdsByName_reduce (paramTags_of arr) JsObject.empty 0 ids = Ok tagIdsByName →
  length ids ≤ length arr
  ∧ tagIdsByName
    = fold_left (λ acc p, JsObject.set acc (name p.1) p.2) (zip arr ids)
                JsObject.empty.
Proof.
  intros Hreduce. destruct (decide (length ids ≤ length arr)) as [Hlen|Hlen].
  - rewrite (tagIdsByName_reduce_zip [] arr) in Hreduce by done.
    by injection Hreduce as <-.
  - rewrite (tagIdsByName_reduce_short [] arr) in Hreduce by lia. done.
Qed.

(** X8. The dictionary the legacy reducer builds holds nothing but
    returned identifiers: an entry pairs the name of a resolved tag with the
    identifier returned at that tag's position; the key [__proto__] never
    gets an entry; and when a name is sent several times the identifier at
    its last position wins. *)
Theorem tagIdsByName_reduce_entries arr (ids : list dbid) tagIdsByName :
  tagIdsByName_reduce (paramTags_of arr) JsObject.empty 0 ids = Ok tagIdsByName →
  length ids ≤ length arr
  ∧ tagIdsByName !! "__proto__" = None
  ∧ (∀ n id, tagIdsByName !! n = Some id →
             ∃ i tag, arr !! i = Some tag ∧ ids !! i = Some id ∧ name tag = n)
  ∧ (∀ before tag id after,
       zip arr ids = before ++ (tag, id) :: after →
       name tag ∉ map (λ p, name p.1) after →
       name tag ≠ "__proto__" →
       tagIdsByName !! name tag = Some id).
Proof.
  intros Hreduce. apply tagIdsByName_reduce_Ok in Hreduce as [Hlen ->].
  split; [done|]. split; [|split].
  - destruct (fold_left _ _ _ !! "__proto__") as [id|] eqn:Hproto; [|done].
    apply fold_set_pairs_Some in Hproto as [Hempty|(tag & _ & _ & Hne)];
      [unfold JsObject.empty in Hempty; by rewrite lookup_empty in Hempty|done].
  - intros n id Hn.
    apply fold_set_pairs_Some in Hn as [Hempty|(tag & Hin & Hname & _)];
      [unfold JsObject.empty in Hempty; by rewrite lookup_empty in Hempty|].
    apply elem_of_zip_lookup in Hin as (i & Ht & Hd). by exists i, tag.
  - intros before tag id after -> Hlast Hproto.
    rewrite fold_left_app. cbn [fold_left fst snd].
    rewrite fold_set_pairs_other by done.
    unfold JsObject.set. case_decide; [done|]. apply lookup_insert_eq.
Qed.

Lemma tagIdsByName_reduce_entries_witness :
  ∃ tagIdsByName,
    tagIdsByName_reduce
      (paramTags_of [placeholder "y"; Samples.tag_x; placeholder "y"])
      JsObject.empty 0 [IdNum 1; IdNum 2; IdNum 3] = Ok tagIdsByName
    ∧ tagIdsByName !! "y" = Some (IdNum 3).
Proof.
  eexists. split; [vm_compute; reflexivity|].
  destruct (tagIdsByName_reduce_entries
              [placeholder "y"; Samples.tag_x; placeholder "y"]
              [IdNum 1; IdNum 2; IdNum 3]
              {["x" := IdNum 2; "y" := IdNum 3]})
    as (_ & _ & _ & Hlast).
  - vm_compute. reflexivity.
  - apply (Hlast [(placeholder "y", IdNum 1); (Samples.tag_x, IdNum 2)]
             (placeholder "y") (IdNum 3) []).
    + reflexivity.
    + cbn. set_solver.
    + done.
Defined.

(** X9. When the database returns more identifiers than tag tuples were
    sent, the legacy run fails with a [TypeError] raised by the reducer (the
    read of [paramTags[index][0]] past the end), after the first call and
    before the second. *)
Theorem sync_excess_ids db courseInfo questionDB new_tag_ids :
  let declared := default [] (courseInfo_tags courseInfo) in
  let arr := resolved_tags declared questionDB in
  getDuplicatesByKey declared name = [] →
  sync_course_tags db (course_tags_call (courseInfo_courseId courseInfo) arr).2
  = Some new_tag_ids →
  length arr < length new_tag_ids →
  (sync db courseInfo questionDB).1 = Throw TypeError
  ∧ calls (sync db courseInfo questionDB).2
    = [course_tags_call (courseInfo_courseId courseInfo) arr].
Proof.
  intros declared arr Hcheck Hfirst Hlen.
  rewrite sync_eq. fold declared. cbn zeta. rewrite Hcheck.
  cbn [length Nat.ltb Nat.leb]. fold arr. rewrite Hfirst.
  rewrite (tagIdsByName_reduce_short [] arr) by done.
  split; [done|]. unfold store_with. by destruct (courseInfo_tags courseInfo).
Qed.

Lemma sync_excess_ids_witness :
  (sync (mkDatabase (λ _, Some [IdNum 1; IdNum 2]) (λ _, Some ())
                    (λ _, None) (λ _, None))
        (mkCourseInfo (Some [Samples.tag_x]) (IdNum 7)) []).1
  = Throw TypeError.
Proof.
  apply (sync_excess_ids
           (mkDatabase (λ _, Some [IdNum 1; IdNum 2]) (λ _, Some ())
                       (λ _, None) (λ _, None))
           (mkCourseInfo (Some [Samples.tag_x]) (IdNum 7)) []
           [IdNum 1; IdNum 2]).
  - vm_compute. reflexivity.
  - reflexivity.
  - cbn. lia.
Defined.

(** ** Runs of the legacy driver *)

Lemma resolved_tags_names declared questionDB qid question t :
  (qid, question) ∈ questionDB → t ∈ tags_of question →
  t ∈ map name (resolved_tags declared questionDB).
Proof.
  intros Hin Ht. unfold resolved_tags. rewrite map_app, elem_of_app.
  destruct (decide (t ∈ map name declared)) as [Hdecl|Hmiss]; [by left|].
  right. rewrite map_map. cbn [placeholder name]. rewrite map_id.
  apply missingTagNames_elem_of. split; [|done]. by exists qid, question.
Qed.

Lemma passes_or_first_failure tagIdsByName (questionDB : list (string * Question)) :
  Forall (λ p, passes tagIdsByName p.2) questionDB
  ∨ ∃ before qid question after,
      questionDB = before ++ (qid, question) :: after
      ∧ Forall (λ p, passes tagIdsByName p.2) before
      ∧ ¬ passes tagIdsByName question.
Proof.
  induction questionDB as [|[qid question] rest IH]; [by left|].
  assert (Decision (passes tagIdsByName question)) as [Hpass|Hfail]
    by (unfold passes; apply _).
  - destruct IH as [Hall|(before & qid' & question' & after & -> & Hbefore & Hfail)].
    + left. by constructor.
    + right. exists ((qid, question) :: before), qid', question', after.
      split; [done|]. split; [by constructor|done].
  - right. exists [], qid, question, rest. split; [done|]. by split.
Qed.

(** X10. When the database returns exactly one identifier per tag tuple,
    every tag name referenced by any question is found in the dictionary
    by the [in] test, so the loop never raises the unknown-tags error: it
    either accepts every question or stops at the first question whose tag
    list fails the duplicate test (the questions enumerated before it pass
    that test), with the duplicate-tags error for it. *)
Theorem sync_full_answer_knows_every_tag declared questionDB
    (new_tag_ids : list dbid) tagIdsByName :
  let arr := resolved_tags declared questionDB in
  length new_tag_ids = length arr →
  tagIdsByName_reduce (paramTags_of arr) JsObject.empty 0 new_tag_ids
  = Ok tagIdsByName →
  (∀ qid question, (qid, question) ∈ questionDB →
                   unknownTags_of tagIdsByName (tags_of question) = [])
  ∧ (for_in_questionDB tagIdsByName questionDB []
     = Ok (map (λ p, association tagIdsByName p.2) questionDB)
     ∨ ∃ before qid question after,
         questionDB = before ++ (qid, question) :: after
         ∧ Forall (λ p, getDuplicates (tags_of p.2) = []) before
         ∧ getDuplicates (tags_of question) ≠ []
         ∧ for_in_questionDB tagIdsByName questionDB []
           = Throw (Error (duplicate_tags_message qid
                             (getDuplicates (tags_of question))))).
Proof.
  intros arr Hlen Hreduce.
  apply tagIdsByName_reduce_Ok in Hreduce as [_ ->].
  assert (∀ qid question, (qid, question) ∈ questionDB →
            unknownTags_of
              (fold_left (λ acc p, JsObject.set acc (name p.1) p.2)
                         (zip arr new_tag_ids) JsObject.empty)
              (tags_of question) = []) as Hknown.
  { intros qid question Hin. apply unknownTags_of_nil. intros t Ht.
    unfold JsObject.has. destruct (JsObject.is_prototype_key t) eqn:Hkey;
      [apply orb_true_r|]. rewrite orb_false_r. apply bool_decide_eq_true.
    apply fold_set_pairs_is_Some.
    - pose proof (resolved_tags_names declared _ _ _ _ Hin Ht) as Hname.
      fold arr in Hname.
      apply list_elem_of_fmap in Hname as (tag & -> & Htag).
      apply list_elem_of_lookup in Htag as [i Hi].
      destruct (lookup_lt_is_Some_2 new_tag_ids i) as [id Hid].
      { rewrite Hlen. by eapply lookup_lt_Some. }
      apply list_elem_of_fmap. exists (tag, id). split; [done|].
      apply elem_of_zip_lookup. by exists i.
    - intros ->. done. }
  split; [done|].
  destruct (passes_or_first_failure
              (fold_left (λ acc p, JsObject.set acc (name p.1) p.2)
                         (zip arr new_tag_ids) JsObject.empty) questionDB)
    as [Hall|(before & qid & question & after & -> & Hbefore & Hfail)].
  - left. by rewrite for_in_questionDB_passes.
  - right. exists before, qid, question, after. split; [done|].
    split; [by eapply Forall_impl; [exact Hbefore|intros p [_ Hp]]|].
    split.
    { intros Hnone. apply Hfail. split; [|done].
      apply (Hknown qid question). set_solver. }
    rewrite for_in_questionDB_first_failure by done. cbn zeta.
    rewrite (Hknown qid question) by set_solver. done.
Qed.

Lemma sync_full_answer_knows_every_tag_witness :
  unknownTags_of {["x" := IdNum 1; "y" := IdNum 2]} ["x"; "y"] = [].
Proof.
  destruct (sync_full_answer_knows_every_tag [Samples.tag_x]
              [("q1", mkQuestion (IdNum 10) (Some ["x"; "y"]))]
              [IdNum 1; IdNum 2] {["x" := IdNum 1; "y" := IdNum 2]})
    as [Hknown _].
  - vm_compute. reflexivity.
  - vm_compute. reflexivity.
  - apply (Hknown "q1" (mkQuestion (IdNum 10) (Some ["x"; "y"]))). set_solver.
Defined.

(** X11. A legacy run completes only on input that is clean: the declared
    tag names, and the tag names of every question, are pairwise distinct
    and none of them is a property name of [Object.prototype]. *)
Theorem sync_Ok_clean_input db courseInfo questionDB :
  (sync db courseInfo questionDB).1 = Ok () →
  let declared := map name (default [] (courseInfo_tags courseInfo)) in
  NoDup declared ∧ Forall ordinary declared
  ∧ ∀ qid question, (qid, question) ∈ questionDB →
      NoDup (tags_of question) ∧ Forall ordinary (tags_of question).
Proof.
  intros Hok declared.
  destruct (sync_Ok_inv _ _ _ Hok)
    as (Hcheck & new_tag_ids & tagIdsByName & _ & _ & Hall & _).
  unfold getDuplicatesByKey in Hcheck.
  rewrite getDuplicates_repeats, repeats_nil_iff in Hcheck.
  destruct Hcheck as [Hnd Hord]. split; [done|].
  split; [by apply Forall_forall|].
  intros qid question Hin. rewrite Forall_forall in Hall.
  destruct (Hall _ Hin) as [_ Hdup]. cbn [snd] in Hdup.
  rewrite getDuplicates_repeats, repeats_nil_iff in Hdup.
  destruct Hdup as [Hnd' Hord']. split; [done|]. by apply Forall_forall.
Qed.

Lemma sync_Ok_clean_input_witness :
  NoDup ["x"; "y"].
Proof.
  destruct (sync_Ok_clean_input Samples.db_ok
              (mkCourseInfo (Some [Samples.tag_x]) (IdNum 1))
              [("q1", mkQuestion (IdNum 10) (Some ["x"; "y"]))])
    as (_ & _ & Hquestions).
  - vm_compute. reflexivity.
  - destruct (Hquestions "q1" (mkQuestion (IdNum 10) (Some ["x"; "y"])))
      as [Hnd _]; [set_solver|exact Hnd].
Defined.

(** X12. In a legacy run that completes, the second call sends one tuple
    per question, in enumeration order, with the question's id and as many
    tag identifiers as the question has tags; every identifier sent is one
    the first call returned (never [null], never an inherited object). *)
Theorem sync_Ok_sends_returned_ids db courseInfo questionDB :
  (sync db courseInfo questionDB).1 = Ok () →
  ∃ new_tag_ids (sent : list (dbid * list dbid)),
    sync_course_tags db
      (course_tags_call (courseInfo_courseId courseInfo)
         (resolved_tags (default [] (courseInfo_tags courseInfo)) questionDB)).2
    = Some new_tag_ids
    ∧ calls (sync db courseInfo questionDB).2 !! 1
      = Some ("sync_question_tags",
              [PJson (JArr (map (λ p, JArr [ json_of_id p.1;
                                             JArr (map json_of_id p.2) ])
                                sent))])
    ∧ map fst sent = map (λ p, question_id p.2) questionDB
    ∧ map (λ p, length p.2) sent = map (λ p, length (tags_of p.2)) questionDB
    ∧ Forall (λ p, Forall (λ id, id ∈ new_tag_ids) p.2) sent.
Proof.
  intros Hok.
  destruct (sync_Ok_inv _ _ _ Hok)
    as (_ & new_tag_ids & tagIdsByName & Hfirst & Hreduce & Hall & Hcalls).
  exists new_tag_ids,
    (map (λ p, (question_id p.2,
                omap (λ t, tagIdsByName !! t) (tags_of p.2))) questionDB).
  split; [done|]. rewrite Forall_forall in Hall.
  split; [|split; [|split]].
  - rewrite Hcalls. cbn [lookup list_lookup]. unfold question_tags_call.
    rewrite json_of_paramQuestionTags_eq, map_map. do 5 f_equal.
    apply map_ext_in. intros [qid question] Hin. cbn [fst snd].
    apply list_elem_of_In, Hall, passes_own_entries in Hin. cbn [snd] in Hin.
    destruct (own_entries_json _ _ Hin) as [Hjson _].
    rewrite map_map in Hjson. by rewrite Hjson.
  - by rewrite map_map.
  - rewrite map_map. apply map_ext_in. intros [qid question] Hin. cbn [snd].
    apply list_elem_of_In, Hall, passes_own_entries in Hin.
    by destruct (own_entries_json _ _ Hin) as [_ Hlen].
  - apply Forall_forall. intros p Hp.
    apply list_elem_of_fmap in Hp as ([qid question] & -> & Hin). cbn [snd].
    apply Forall_forall. intros id Hid.
    apply list_elem_of_omap in Hid as (t & Ht & Hentry).
    destruct (tagIdsByName_reduce_Ok _ _ _ Hreduce) as [_ ->].
    apply fold_set_pairs_Some in Hentry as [Hempty|(tag & Hzip & _)].
    + unfold JsObject.empty in Hempty. by rewrite lookup_empty in Hempty.
    + apply elem_of_zip_lookup in Hzip as (i & _ & Hi).
      by eapply list_elem_of_lookup_2.
Qed.

Lemma sync_Ok_sends_returned_ids_witness :
  ∃ (new_tag_ids : list dbid) (sent : list (dbid * list dbid)),
    map fst sent = [IdNum 10]
    ∧ Forall (λ p, Forall (λ id, id ∈ new_tag_ids) p.2) sent.
Proof.
  destruct (sync_Ok_sends_returned_ids Samples.db_ok
              (mkCourseInfo (Some [Samples.tag_x]) (IdNum 1))
              [("q1", mkQuestion (IdNum 10) (Some ["x"; "y"]))])
    as (new_tag_ids & sent & _ & _ & Hids & _ & Hreturned).
  - vm_compute. reflexivity.
  - by exists new_tag_ids, sent.
Defined.

(** X13. The legacy driver calls nothing when the course-level check
    fails; otherwise it calls [sync_course_tags] first, and
    [sync_question_tags] after it only once every question has passed the
    loop, so a run stopped by a question never reaches the second
    procedure; a run that completes has made both calls. *)
Theorem sync_calls_discipline db courseInfo questionDB :
  let declared := default [] (courseInfo_tags courseInfo) in
  let log := calls (sync db courseInfo questionDB).2 in
  let first :=
    course_tags_call (courseInfo_courseId courseInfo)
                     (resolved_tags declared questionDB) in
  (getDuplicatesByKey declared name ≠ [] → log = [])
  ∧ (getDuplicatesByKey declared name = [] →
     log = [first]
     ∨ ∃ params,
         log = [first; ("sync_question_tags", params)]
         ∧ ∀ qid question, (qid, question) ∈ questionDB →
                           NoDup (tags_of question))
  ∧ ((sync db courseInfo questionDB).1 = Ok () → length log = 2).
Proof.
  intros declared log first. unfold log. rewrite sync_eq.
  fold declared. cbn zeta. fold first.
  destruct (0 <? length (getDuplicatesByKey declared name)) eqn:Hcheck.
  { apply length_positive_true in Hcheck. cbn [fst snd calls].
    split; [done|]. split; [done|]. intros [=]. }
  apply length_positive_false in Hcheck. split; [done|].
  assert (∀ arr log', calls (store_with courseInfo arr log') = log') as Hlog.
  { intros arr log'. unfold store_with.
    by destruct (courseInfo_tags courseInfo). }
  destruct (sync_course_tags db _).
  2: { cbn [fst snd]. rewrite Hlog. split; [by left|]. intros [=]. }
  destruct (tagIdsByName_reduce _ _ _ _) as [tagIdsByName|].
  2: { cbn [fst snd]. rewrite Hlog. split; [by left|]. intros [=]. }
  destruct (for_in_questionDB _ _ _) as [paramQuestionTags|] eqn:Hloop.
  2: { cbn [fst snd]. rewrite Hlog. split; [by left|]. intros [=]. }
  apply for_in_questionDB_Ok in Hloop. rewrite Forall_forall in Hloop.
  assert (∀ qid question, (qid, question) ∈ questionDB →
                          NoDup (tags_of question)) as Hdistinct.
  { intros qid question Hin. destruct (Hloop _ Hin) as [_ Hdup].
    cbn [snd] in Hdup.
    rewrite getDuplicates_repeats, repeats_nil_iff in Hdup. by destruct Hdup. }
  destruct (sync_question_tags db _); cbn [fst snd]; rewrite Hlog.
  - split; [|done]. intros _. right. by eexists.
  - split; [|intros [=]]. intros _. right. by eexists.
Qed.

Lemma sync_calls_discipline_witness :
  calls (sync Samples.db_ok
           (mkCourseInfo (Some [Samples.tag_x; Samples.tag_x]) (IdNum 1))
           []).2 = [].
Proof.
  destruct (sync_calls_discipline Samples.db_ok
              (mkCourseInfo (Some [Samples.tag_x; Samples.tag_x]) (IdNum 1))
              []) as [Hnone _].
  apply Hnone. vm_compute. discriminate.
Defined.

Lemma filter_undeclared_nil (l : list string) :
  List.filter (λ n, negb (bool_decide (n ∈ map name []))) l = l.
Proof.
  induction l as [|x l IH]; [done|]. cbn [List.filter].
  rewrite bool_decide_eq_false_2 by (cbn [map]; set_solver).
  cbn [negb]. by rewrite IH.
Qed.

(** X14. When [courseInfo.tags] is absent the legacy driver works on an
    array of its own: the caller's [courseInfo] is left without tags
    whatever the run does, the course-level check passes, and every tag
    reference of every question becomes a placeholder, sent by the first
    call. *)
Theorem sync_absent_tags db courseInfo questionDB :
  courseInfo_tags courseInfo = None →
  let references := flat_map (λ p, tags_of p.2) questionDB in
  caller_tags (sync db courseInfo questionDB).2 = None
  ∧ fresh_tags (sync db courseInfo questionDB).2 = map placeholder references
  ∧ calls (sync db courseInfo questionDB).2 !! 0
    = Some (course_tags_call (courseInfo_courseId courseInfo)
              (map placeholder references)).
Proof.
  intros Habsent references.
  assert (resolved_tags [] questionDB = map placeholder references) as Harr.
  { unfold resolved_tags. cbn [app].
    by rewrite missingTagNames_eq, filter_undeclared_nil. }
  rewrite sync_eq, Habsent. change (default [] None) with (@nil Tag).
  cbn zeta. change (getDuplicatesByKey [] name) with (@nil string).
  cbn [length Nat.ltb Nat.leb]. rewrite Harr. unfold store_with.
  rewrite Habsent.
  destruct (sync_course_tags db _); [|done].
  destruct (tagIdsByName_reduce _ _ _ _); [|done].
  destruct (for_in_questionDB _ _ _); [|done].
  by destruct (sync_question_tags db _).
Qed.

Lemma sync_absent_tags_witness :
  fresh_tags (sync Samples.db_down (mkCourseInfo None (IdNum 1))
                [("q1", mkQuestion (IdNum 10) (Some ["y"]))]).2
  = [placeholder "y"].
Proof.
  destruct (sync_absent_tags Samples.db_down (mkCourseInfo None (IdNum 1))
              [("q1", mkQuestion (IdNum 10) (Some ["y"]))]) as (_ & Hfresh & _).
  - reflexivity.
  - exact Hfresh.
Defined.


(** X16. A name declared twice in the course stops the legacy run at once:
    the error lists the repeated names in order, nothing is called and the
    caller's array is as it was. *)
Theorem sync_duplicate_names_error db courseInfo questionDB :
  let names := map name (default [] (courseInfo_tags courseInfo)) in
  ¬ NoDup names →
  sync db courseInfo questionDB
  = (Throw (Error ("Duplicate tag names found: " ++ join (getDuplicates names)
                   ++ ". Tag names must be unique within the course.")),
     mkStore (courseInfo_tags courseInfo) [] [])
  ∧ getDuplicates names ≠ []
  ∧ getDuplicates names `sublist_of` names.
Proof.
  intros names Hdup. split; [|split].
  - rewrite sync_eq. cbn zeta. unfold getDuplicatesByKey. fold names.
    pose proof (getDuplicates_not_NoDup _ Hdup) as Hsome.
    apply length_positive_true in Hsome. by rewrite Hsome.
  - by apply getDuplicates_not_NoDup.
  - rewrite getDuplicates_repeats. apply repeats_sublist.
Qed.

Lemma sync_duplicate_names_error_witness :
  (sync Samples.db_ok
     (mkCourseInfo (Some [mkTag "a" "c1" "d"; mkTag "a" "c2" "e"]) (IdNum 1))
     []).1
  = Throw (Error "Duplicate tag names found: a. Tag names must be unique within the course.").
Proof.
  destruct (sync_duplicate_names_error Samples.db_ok
              (mkCourseInfo (Some [mkTag "a" "c1" "d"; mkTag "a" "c2" "e"])
                            (IdNum 1)) []) as [Hrun _].
  - cbn. intros Hnd. apply NoDup_cons in Hnd as [Hnotin _]. set_solver.
  - rewrite Hrun. vm_compute. reflexivity.
Defined.

(** X17. Within one question the unknown-tags test of the legacy loop
    comes before the duplicate test: when the questions enumerated before
    it pass both tests, a question with a tag that is not found in the
    dictionary stops the run with the unknown-tags error listing those tags
    in order, whether or not the question also repeats a tag, and the second
    procedure is not called. *)
Theorem sync_unknown_tags_first db courseInfo before qid question after
    new_tag_ids tagIdsByName :
  let questionDB := before ++ (qid, question) :: after in
  let declared := default [] (courseInfo_tags courseInfo) in
  let arr := resolved_tags declared questionDB in
  getDuplicatesByKey declared name = [] →
  sync_course_tags db (course_tags_call (courseInfo_courseId courseInfo) arr).2
  = Some new_tag_ids →
  tagIdsByName_reduce (paramTags_of arr) JsObject.empty 0 new_tag_ids
  = Ok tagIdsByName →
  Forall (λ p, passes tagIdsByName p.2) before →
  unknownTags_of tagIdsByName (tags_of question) ≠ [] →
  (sync db courseInfo questionDB).1
  = Throw (Error ("Question " ++ qid ++ " has unknown tags: "
                  ++ join (unknownTags_of tagIdsByName (tags_of question))))
  ∧ calls (sync db courseInfo questionDB).2
    = [course_tags_call (courseInfo_courseId courseInfo) arr].
Proof.
  intros questionDB declared arr Hcheck Hfirst Hreduce Hbefore Hunknown.
  rewrite sync_eq. fold declared. cbn zeta. rewrite Hcheck.
  cbn [length Nat.ltb Nat.leb]. fold arr. rewrite Hfirst, Hreduce.
  unfold questionDB. rewrite for_in_questionDB_first_failure; [|done|].
  - cbn zeta. apply length_positive_true in Hunknown. rewrite Hunknown.
    split; [done|]. unfold store_with. by destruct (courseInfo_tags courseInfo).
  - by intros [Hnone _].
Qed.

Lemma sync_unknown_tags_first_witness :
  (sync Samples.db_silent (mkCourseInfo (Some [Samples.tag_x]) (IdNum 1))
     [("q1", mkQuestion (IdNum 10) (Some ["x"; "x"]))]).1
  = Throw (Error "Question q1 has unknown tags: x, x").
Proof.
  destruct (sync_unknown_tags_first Samples.db_silent
              (mkCourseInfo (Some [Samples.tag_x]) (IdNum 1))
              [] "q1" (mkQuestion (IdNum 10) (Some ["x"; "x"])) [] [] ∅)
    as [Hrun _].
  - vm_compute. reflexivity.
  - reflexivity.
  - reflexivity.
  - constructor.
  - vm_compute. discriminate.
  - exact Hrun.
Defined.

(** ** The question identifiers of the current driver *)

(** X19. The current driver does not check [questionIds]: a question that
    loaded without error and whose id is missing from [questionIds] is sent
    all the same, with [null] in place of its identifier. *)
Theorem syncNew_missing_question_id (tagIdsByName questionIds : gmap string dbid)
    questions qid question :
  (qid, question) ∈ questions →
  hasErrors question = false →
  questionIds !! qid = None →
  ordinary qid →
  PJson (JArr [ JNull;
                JArr (map (λ t, json_of_option (tagIdsByName !! t))
                          (JsSet.add_all [] (info_tags_of question))) ])
  ∈ questionTagsParam_of tagIdsByName questionIds questions.
Proof.
  intros Hin Herr Hmissing Hord. rewrite questionTagsParam_of_eq.
  pose proof (association_param_elem_of tagIdsByName questionIds _ _ _ Hin Herr)
    as Hsent.
  unfold association_param, JsObject.get in Hsent. rewrite Hmissing in Hsent.
  unfold JsObject.is_prototype_key in Hsent.
  by rewrite bool_decide_eq_false_2 in Hsent.
Qed.

Lemma syncNew_missing_question_id_witness :
  PJson (JArr [JNull; JArr [JNum 1]])
  ∈ questionTagsParam_of {["t1" := IdNum 1]} ∅
      [("q1", mkInfoFile false (mkQuestionJson (Some ["t1"; "t1"])))].
Proof.
  assert (ordinary "q1") as Hord
    by (unfold ordinary, JsObject.prototype_keys; set_solver).
  assert (("q1", mkInfoFile false (mkQuestionJson (Some ["t1"; "t1"])))
          ∈ [("q1", mkInfoFile false (mkQuestionJson (Some ["t1"; "t1"])))])
    as Hin by set_solver.
  pose proof (syncNew_missing_question_id {["t1" := IdNum 1]} ∅ _ _ _
                Hin eq_refl eq_refl Hord) as Hsent.
  vm_compute in Hsent. vm_compute. exact Hsent.
Defined.
